(** * Web page scraper and extractive summarizer: model of [scraper.py]

    The development embeds the text pipeline of [src/scraper.py]
    (sentence segmentation, tokenization, word-frequency scoring, top-N
    selection, content extraction from a parsed document) and proves the
    properties stated about it.

    Conventions.
    - A Python [str] is a [string]; a character is read as a code point
      below 256 (Latin-1).  On that range [str.lower], [str.isspace], the
      regular-expression class [\s] and [str.strip] are the functions
      written out below.
    - Python [int] arguments are [Z]; word counts and scores, which are
      sums of increments by one, are [nat].
    - A [dict] / [Counter] is a [gmap string nat], a [set] a [gset string].
    - Exceptions are a [result] value. *)

From Stdlib Require Import Ascii String ZArith List Sorted Permutation.
From stdpp Require Import base decidable option list sorting gmap strings.

Local Open Scope string_scope.
Local Open Scope Z_scope.

(** ** Exceptions as results *)

Inductive exn : Type :=
  | ScraperError (message : string)
  | ValueError (message : string).

Inductive result (A : Type) : Type :=
  | Ok (value : A)
  | Raise (error : exn).

Arguments Ok {A} value.
Arguments Raise {A} error.

(** ** Characters and strings *)

Module Chars.

Definition code (c : ascii) : nat := nat_of_ascii c.

Definition between (lo hi : nat) (c : ascii) : bool :=
  ((lo <=? code c) && (code c <=? hi))%nat.

(** [str.isspace] on one character, which is also the class [\s]. *)
Definition isspace (c : ascii) : bool :=
  between 9 13 c || between 28 32 c
  || (code c =? 133)%nat || (code c =? 160)%nat.

(** The class [[a-zA-Z]]. *)
Definition isalpha (c : ascii) : bool :=
  between 65 90 c || between 97 122 c.

(** The class [[.!?]]. *)
Definition is_ending (c : ascii) : bool :=
  (code c =? 46)%nat || (code c =? 33)%nat || (code c =? 63)%nat.

(** [str.lower] on one character: A-Z and the Latin-1 capitals. *)
Definition lower (c : ascii) : ascii :=
  if between 65 90 c
     || (between 192 222 c && negb (code c =? 215)%nat)
  then ascii_of_nat (code c + 32)
  else c.

End Chars.

Module Str.

Definition is_empty (s : string) : bool :=
  match s with
  | EmptyString => true
  | String _ _ => false
  end.

Fixpoint lower (s : string) : string :=
  match s with
  | EmptyString => EmptyString
  | String c r => String (Chars.lower c) (lower r)
  end.

Fixpoint lstrip (s : string) : string :=
  match s with
  | EmptyString => EmptyString
  | String c r => if Chars.isspace c then lstrip r else s
  end.

Fixpoint rstrip (s : string) : string :=
  match s with
  | EmptyString => EmptyString
  | String c r =>
      let r' := rstrip r in
      if is_empty r' && Chars.isspace c then EmptyString else String c r'
  end.

(** [s.strip()] *)
Definition strip (s : string) : string := lstrip (rstrip s).

(** [sep.join(parts)] *)
Definition join (sep : string) (parts : list string) : string :=
  String.concat sep parts.

(** [len(s)] *)
Definition len (s : string) : Z := Z.of_nat (String.length s).

(** Every character of [s] is white space. *)
Fixpoint all_space (s : string) : bool :=
  match s with
  | EmptyString => true
  | String c r => Chars.isspace c && all_space r
  end.

End Str.

(** ** Regular expressions used by the source *)

Module Re.

(** The maximal runs of characters of class [cls], left to right:
    [re.findall(r"[cls]+", s)].  [runs] returns the run that starts at
    the head of [s] (possibly empty) and the later ones. *)
Fixpoint runs (cls : ascii → bool) (s : string) : string * list string :=
  match s with
  | EmptyString => (EmptyString, [])
  | String c r =>
      let '(h, t) := runs cls r in
      if cls c then (String c h, t)
      else (EmptyString, if Str.is_empty h then t else h :: t)
  end.

Definition findall (cls : ascii → bool) (s : string) : list string :=
  let '(h, t) := runs cls s in
  if Str.is_empty h then t else h :: t.

(** [re.sub(r"\s+", " ", s)]: each maximal white-space run becomes one
    space.  [in_run] tells that the previous character was white
    space. *)
Fixpoint sub_spaces_from (in_run : bool) (s : string) : string :=
  match s with
  | EmptyString => EmptyString
  | String c r =>
      if Chars.isspace c
      then if in_run then sub_spaces_from true r
           else String " " (sub_spaces_from true r)
      else String c (sub_spaces_from false r)
  end.

Definition sub_spaces (s : string) : string := sub_spaces_from false s.

(** [re.compile(r"(?<=[.!?])\s+").split(s)].  A match is a maximal
    white-space run whose preceding character is one of [.!?].
    [in_sep] tells that the scan is inside a match, [after_end] that the
    previous character is one of [.!?].  The result is the piece that
    is being read and the pieces after it. *)
Fixpoint split_endings_from (in_sep after_end : bool) (s : string)
  : string * list string :=
  match s with
  | EmptyString => (EmptyString, [])
  | String c r =>
      if Chars.isspace c then
        if in_sep then split_endings_from true false r
        else if after_end then
          let '(h, t) := split_endings_from true false r in
          (EmptyString, h :: t)
        else
          let '(h, t) := split_endings_from false false r in
          (String c h, t)
      else
        let '(h, t) := split_endings_from false (Chars.is_ending c) r in
        (String c h, t)
  end.

Definition split_endings (s : string) : list string :=
  let '(h, t) := split_endings_from false false s in h :: t.

End Re.

(** ** Stop words and tokenization *)

Definition STOP_WORDS : gset string :=
  list_to_set
    [ "a"; "about"; "above"; "after"; "again"; "against"; "all"; "am"; "an";
      "and"; "any"; "are"; "as"; "at"; "be"; "because"; "been"; "before";
      "being"; "below"; "between"; "both"; "but"; "by"; "could"; "did";
      "do"; "does"; "doing"; "down"; "during"; "each"; "few"; "for";
      "from"; "further"; "had"; "has"; "have"; "having"; "he"; "her";
      "here"; "hers"; "herself"; "him"; "himself"; "his"; "how"; "i"; "if";
      "in"; "into"; "is"; "it"; "its"; "itself"; "just"; "me"; "more";
      "most"; "my"; "myself"; "no"; "nor"; "not"; "now"; "of"; "off"; "on";
      "once"; "only"; "or"; "other"; "our"; "ours"; "ourselves"; "out";
      "over"; "own"; "same"; "she"; "should"; "so"; "some"; "such"; "than";
      "that"; "the"; "their"; "theirs"; "them"; "themselves"; "then";
      "there"; "these"; "they"; "this"; "those"; "through"; "to"; "too";
      "under"; "until"; "up"; "very"; "was"; "we"; "were"; "what"; "when";
      "where"; "which"; "while"; "who"; "whom"; "why"; "will"; "with";
      "you"; "your"; "yours"; "yourself"; "yourselves" ].

(** [tokenize_sentence(sentence)] *)
Definition tokenize_sentence (sentence : string) : list string :=
  let words := Re.findall Chars.isalpha (Str.lower sentence) in
  filter (λ word, word ∉ STOP_WORDS) words.

(** [split_sentences(text)] *)
Definition split_sentences (text : string) : list string :=
  let candidates := Re.split_endings text in
  let normalized :=
    map Str.strip
      (filter (λ candidate, Str.strip candidate ≠ EmptyString) candidates) in
  normalized.

(** ** Sorting as the Python library does it *)

Section stable_sort.
Context {A : Type} (ahead : A → A → bool).

(** [x] is put in front of the first element it may stay ahead of. *)
Fixpoint insert_stable (x : A) (l : list A) : list A :=
  match l with
  | [] => [x]
  | y :: r => if ahead x y then x :: l else y :: insert_stable x r
  end.

(** A stable sort: [x], which is before every element of [l] in the
    input, stays before those it is not strictly behind. *)
Fixpoint sort_stable (l : list A) : list A :=
  match l with
  | [] => []
  | x :: r => insert_stable x (sort_stable r)
  end.
End stable_sort.

(** [sorted(l, key=key)] and [l.sort(key=key)]: stable, ascending. *)
Definition sorted {A} (key : A → nat) (l : list A) : list A :=
  sort_stable (λ x y, (key x <=? key y)%nat) l.

(** [sorted(l, key=key, reverse=True)]: stable, descending. *)
Definition sorted_reverse {A} (key : A → nat) (l : list A) : list A :=
  sort_stable (λ x y, (key y <=? key x)%nat) l.

(** [heapq.nlargest(n, l, key=key)], which the library documents as
    [sorted(l, key=key, reverse=True)[:n]]; a negative [n] gives the
    empty list. *)
Definition nlargest {A} (n : Z) (l : list A) (key : A → nat) : list A :=
  take (Z.to_nat n) (sorted_reverse key l).

(** [l.index(x)]: the first position of [x], [None] for [ValueError]. *)
Fixpoint index {A} `{EqDecision A} (l : list A) (x : A) : option nat :=
  match l with
  | [] => None
  | y :: r => if decide (x = y) then Some 0%nat else S <$> index r x
  end.

(** [l.sort(key=lambda s: sentences.index(s))]: the keys of all elements
    are computed first, then the list is sorted on them. *)
Definition sort_by_index (sentences l : list string) : result (list string) :=
  match mapM (index sentences) l with
  | Some keys => Ok (snd <$> sorted fst (zip keys l))
  | None => Raise (ValueError "is not in list")
  end.

(** The sort key of line 245, with 0 where [index] raises. *)
Definition index_key (sentences : list string) (s : string) : nat :=
  default 0%nat (index sentences s).

(** ** The summarizer *)

(** [word_freq[word] += 1] on a [Counter]: a missing word counts 0. *)
Definition counter_get (word_freq : gmap string nat) (word : string) : nat :=
  default 0%nat (word_freq !! word).

Definition counter_incr (word_freq : gmap string nat) (word : string)
  : gmap string nat :=
  <[word := S (counter_get word_freq word)]> word_freq.

(** No entry of the table is zero. *)
Definition positive_counts (word_freq : gmap string nat) : Prop :=
  ∀ w, word_freq !! w ≠ Some 0%nat.

Section summarizer.
(** The order in which Python iterates over a [set] is not specified;
    it is a parameter of the model. *)
Variable set_iter : gset string → list string.

(** One round of the first loop (lines 228-235). *)
Definition count_sentence (word_freq : gmap string nat) (sentence : string)
  : gmap string nat :=
  let words := tokenize_sentence sentence in
  match words with
  | [] => word_freq
  | _ =>
      let unique_words : gset string := list_to_set words in
      foldl counter_incr word_freq (set_iter unique_words)
  end.

Definition build_word_freq (filtered : list string) : gmap string nat :=
  foldl count_sentence ∅ filtered.

(** [sum(word_freq[word] for word in words)] *)
Definition sentence_score (word_freq : gmap string nat) (sentence : string)
  : nat :=
  let words := tokenize_sentence sentence in
  foldr plus 0%nat (counter_get word_freq <$> words).

(** The second loop (lines 240-242). *)
Definition build_sentence_scores (word_freq : gmap string nat)
    (filtered : list string) : gmap string nat :=
  foldl (λ scores sentence,
           <[sentence := sentence_score word_freq sentence]> scores)
        ∅ filtered.

(** [sentence_scores.get], used as a sort key. *)
Definition scores_get (sentence_scores : gmap string nat) (s : string) : nat :=
  default 0%nat (sentence_scores !! s).

Definition filter_sentences (sentences : list string) (min_chars : Z)
  : list string :=
  filter (λ s, min_chars ≤ Str.len s) sentences.

(** The selection of line 244, with the score function as key. *)
Definition top_sentences (sentences : list string)
    (max_sentences min_chars : Z) : list string :=
  let filtered := filter_sentences sentences min_chars in
  nlargest max_sentences filtered
    (sentence_score (build_word_freq filtered)).

Definition summarize_sentences_with
    (sentences : list string) (max_sentences min_chars : Z)
  : result (list string) :=
  let filtered := filter_sentences sentences min_chars in
  if decide (filtered = []) then
    Raise (ScraperError
      "Not enough substantial sentences were found to build a summary.")
  else
    let word_freq := build_word_freq filtered in
    if decide (word_freq = ∅) then
      Raise (ScraperError
        "Failed to compute word frequencies for summarization.")
    else
      let sentence_scores := build_sentence_scores word_freq filtered in
      let top_sentences :=
        nlargest max_sentences filtered (scores_get sentence_scores) in
      sort_by_index sentences top_sentences.
End summarizer.

(** The model with the iteration order of [elements]. *)
Definition summarize_sentences := summarize_sentences_with elements.

(** ** The parsed document

    [BeautifulSoup(html, "lxml")] is a library call; its result is a
    tree of page elements.  The operations below are the ones of the
    library that [extract_sentences] uses. *)

#[local] Set Warnings "-register-all".

Inductive PageElement : Type :=
  | NavigableString (text : string)
  | Comment (text : string)
  | Tag (name : string) (contents : list PageElement).

Record PageContent : Type := mkPageContent {
  title : string;
  sentences : list string
}.

Module Soup.

Definition is_tag (name : string) (e : PageElement) : bool :=
  match e with
  | Tag n _ => bool_decide (n = name)
  | _ => false
  end.

(** [e.descendants]: the elements below [e], in document order. *)
Fixpoint descendants (e : PageElement) : list PageElement :=
  match e with
  | Tag _ contents => flat_map (λ c, c :: descendants c) contents
  | _ => []
  end.

(** [e.find_all(name)] and [e.find(name)]. *)
Definition find_all (name : string) (e : PageElement) : list PageElement :=
  filter (λ d, is_tag name d = true) (descendants e).

Definition find (name : string) (e : PageElement) : option PageElement :=
  head (find_all name e).

(** [for tag in soup(names): tag.decompose()]: every element below the
    root whose name is in [names] is removed with all it contains. *)
Fixpoint prune (names : list string) (e : PageElement) : list PageElement :=
  match e with
  | Tag n contents =>
      if decide (n ∈ names) then []
      else [Tag n (flat_map (prune names) contents)]
  | _ => [e]
  end.

Definition decompose_all (names : list string) (soup : PageElement)
  : PageElement :=
  match soup with
  | Tag n contents => Tag n (flat_map (prune names) contents)
  | _ => soup
  end.

(** The strings that [get_text] joins: the text nodes below [e], not
    the comments; with [strip] each is stripped and dropped when
    empty. *)
Definition string_of (strip : bool) (d : PageElement) : list string :=
  match d with
  | NavigableString t =>
      if strip then
        let t' := Str.strip t in
        if Str.is_empty t' then [] else [t']
      else [t]
  | _ => []
  end.

Definition all_strings (strip : bool) (e : PageElement) : list string :=
  flat_map (string_of strip) (descendants e).

(** [e.get_text(separator=sep, strip=strip)] *)
Definition get_text (sep : string) (strip : bool) (e : PageElement)
  : string :=
  Str.join sep (all_strings strip e).

(** [e.text] *)
Definition text (e : PageElement) : string := get_text "" false e.

End Soup.

(** ** The content extractor *)

Definition NON_CONTENT : list string :=
  ["script"; "style"; "noscript"; "header"; "footer"; "form"].

(** Line 190. *)
Definition page_title (soup : PageElement) : string :=
  match Soup.find "title" soup with
  | Some title_tag =>
      if Str.is_empty (Soup.text title_tag) then "Untitled page"
      else Str.strip (Soup.text title_tag)
  | None => "Untitled page"
  end.

(** Lines 192-196. *)
Definition raw_text (soup : PageElement) : string :=
  let paragraphs := Soup.get_text " " true <$> Soup.find_all "p" soup in
  match paragraphs with
  | [] => Soup.get_text " " false soup
  | _ => Str.join " " paragraphs
  end.

(** Line 198. *)
Definition clean_text (raw : string) : string :=
  Str.strip (Re.sub_spaces raw).

(** [extract_sentences] once the document is parsed. *)
Definition extract_from_soup (parsed : PageElement) : result PageContent :=
  let soup := Soup.decompose_all NON_CONTENT parsed in
  let title := page_title soup in
  let cleaned := clean_text (raw_text soup) in
  if Str.is_empty cleaned then
    Raise (ScraperError "Unable to extract textual content from the page.")
  else
    Ok {| title := title; sentences := split_sentences cleaned |}.

Section extractor.
(** The parser of the library. *)
Variable BeautifulSoup : string → PageElement.

Definition extract_sentences (html : string) : result PageContent :=
  extract_from_soup (BeautifulSoup html).
End extractor.

(** Text in the form [clean_text] produces: no white space other than
    single spaces between other characters. *)
Fixpoint single_spaced (s : string) : bool :=
  match s with
  | EmptyString => true
  | String c r =>
      if Chars.isspace c then
        bool_decide (c = " "%char)
        && match r with
           | EmptyString => false
           | String d _ => negb (Chars.isspace d)
           end
        && single_spaced r
      else single_spaced r
  end.

Definition normalized (s : string) : bool :=
  match s with
  | EmptyString => true
  | String c _ => negb (Chars.isspace c)
  end && single_spaced s.

(** The first character exists and is not white space. *)
Definition starts_nonspace (s : string) : Prop :=
  match s with
  | EmptyString => False
  | String c _ => Chars.isspace c = false
  end.

(** A piece that [split_sentences] keeps as it is. *)
Definition whole_piece (h : string) : Prop :=
  starts_nonspace h ∧ Str.rstrip h = h.

(** Text in which every white-space character is a space that is not
    followed by white space: the output of [Re.sub_spaces]. *)
Fixpoint loosely_spaced (s : string) : bool :=
  match s with
  | EmptyString => true
  | String c r =>
      (if Chars.isspace c then
         bool_decide (c = " "%char)
         && match r with
            | EmptyString => true
            | String d _ => negb (Chars.isspace d)
            end
       else true)
      && loosely_spaced r
  end.

(** The order in which a stable descending sort leaves elements that
    carry their input position. *)
Definition ranks_before {A} (score : A → nat) (a b : nat * A) : Prop :=
  (score b.2 < score a.2 ∨ (score a.2 = score b.2 ∧ a.1 < b.1))%nat.

(** The output is a subsequence of the input: strictly increasing input
    positions hold, in order, the elements of the output. *)
Definition subsequence {A} (out input : list A) : Prop :=
  ∃ positions : list nat,
    StronglySorted lt positions ∧
    Forall2 (λ i x, input !! i = Some x) positions out.

(** Python's [enumerate(l, start)]. *)
Fixpoint enumerate {A} (start : nat) (l : list A) : list (nat * A) :=
  match l with
  | [] => []
  | x :: r => (start, x) :: enumerate (S start) r
  end.

(** ** Presentation and the callers *)

(** [PageContent.text] (lines 159-161). *)
Definition PageContent_text (page : PageContent) : string :=
  Str.join " " (sentences page).

(** The one-character string of a line feed. *)
Definition newline : string := String "010" EmptyString.

(** [format_summary(page, summary_sentences)] *)
Definition format_summary (page : PageContent)
    (summary_sentences : list string) : string :=
  let lines :=
    title page :: EmptyString
    :: ((λ sentence, String.append "- " sentence) <$> summary_sentences) in
  Str.join newline lines.

(** What the page template of the web front end receives. *)
Record SummaryView : Type := mkSummaryView {
  view_title : string;
  view_url : string;
  view_summary : list string;
  view_full_text : string
}.

Record Rendered : Type := mkRendered {
  rendered_result : option SummaryView;
  rendered_error : option string;
  form_defaults : string * string * string
}.

(** [request.form.get(key, default_value)] *)
Definition form_get (form : gmap string string) (key default_value : string)
  : string :=
  default default_value (form !! key).

Section callers.
(** The iteration order of sets, the network fetch ([fetch_html], which
    raises [ScraperError] on a network error or a bad status), the parser
    and Python's [int] on a string ([None] for [ValueError]) are
    parameters. *)
Variable set_iter : gset string → list string.
Variable fetch_html : string → result string.
Variable BeautifulSoup : string → PageElement.
Variable int : string → option Z.

(** [run(url, sentences=..., min_chars=...)] of [scraper.py]. *)
Definition run (url : string) (num_sentences min_chars : Z)
  : result (PageContent * list string) :=
  match fetch_html url with
  | Raise e => Raise e
  | Ok html =>
      match extract_sentences BeautifulSoup html with
      | Raise e => Raise e
      | Ok page =>
          match summarize_sentences_with set_iter (sentences page)
                  num_sentences min_chars with
          | Raise e => Raise e
          | Ok summary => Ok (page, summary)
          end
      end
  end.

(** The POST handler [summarize] of [webapp.py]: only [ScraperError] is
    caught. *)
Definition web_summarize (form : gmap string string) : result Rendered :=
  let url := Str.strip (form_get form "url" "") in
  let sentences_field := Str.strip (form_get form "sentences" "5") in
  let min_chars_field := Str.strip (form_get form "min_chars" "40") in
  let render result error :=
    {| rendered_result := result; rendered_error := error;
       form_defaults := (url, sentences_field, min_chars_field) |} in
  match int sentences_field, int min_chars_field with
  | Some s, Some m =>
      let sentences_count := Z.max 1 s in
      let min_chars_count := Z.max 10 m in
      if Str.is_empty url then
        Ok (render None (Some "Please enter a valid URL."))
      else
        match run url sentences_count min_chars_count with
        | Ok (page, summary) =>
            Ok (render
                  (Some {| view_title := title page; view_url := url;
                           view_summary := summary;
                           view_full_text := PageContent_text page |})
                  None)
        | Raise (ScraperError message) => Ok (render None (Some message))
        | Raise e => Raise e
        end
  | _, _ =>
      Ok (render None
            (Some "Sentences and minimum characters must be numeric values."))
  end.
End callers.

Section callers_with_parser.
(** The same callers with a parser that may raise: line 184 is outside
    any [try], so what [BeautifulSoup(html, "lxml")] raises leaves
    [extract_sentences] and [run] as it is. *)
Variable set_iter : gset string → list string.
Variable fetch_html : string → result string.
Variable parse : string → result PageElement.
Variable int : string → option Z.

Definition extract_sentences_parsed (html : string) : result PageContent :=
  match parse html with
  | Raise e => Raise e
  | Ok parsed => extract_from_soup parsed
  end.

Definition run_parsed (url : string) (num_sentences min_chars : Z)
  : result (PageContent * list string) :=
  match fetch_html url with
  | Raise e => Raise e
  | Ok html =>
      match extract_sentences_parsed html with
      | Raise e => Raise e
      | Ok page =>
          match summarize_sentences_with set_iter (sentences page)
                  num_sentences min_chars with
          | Raise e => Raise e
          | Ok summary => Ok (page, summary)
          end
      end
  end.

Definition web_summarize_parsed (form : gmap string string)
  : result Rendered :=
  let url := Str.strip (form_get form "url" "") in
  let sentences_field := Str.strip (form_get form "sentences" "5") in
  let min_chars_field := Str.strip (form_get form "min_chars" "40") in
  let render result error :=
    {| rendered_result := result; rendered_error := error;
       form_defaults := (url, sentences_field, min_chars_field) |} in
  match int sentences_field, int min_chars_field with
  | Some s, Some m =>
      let sentences_count := Z.max 1 s in
      let min_chars_count := Z.max 10 m in
      if Str.is_empty url then
        Ok (render None (Some "Please enter a valid URL."))
      else
        match run_parsed url sentences_count min_chars_count with
        | Ok (page, summary) =>
            Ok (render
                  (Some {| view_title := title page; view_url := url;
                           view_summary := summary;
                           view_full_text := PageContent_text page |})
                  None)
        | Raise (ScraperError message) => Ok (render None (Some message))
        | Raise e => Raise e
        end
  | _, _ =>
      Ok (render None
            (Some "Sentences and minimum characters must be numeric values."))
  end.
End callers_with_parser.

(** ** Notions used to state properties *)

(** The last character of a string. *)
Fixpoint last_char (s : string) : option ascii :=
  match s with
  | EmptyString => None
  | String c EmptyString => Some c
  | String _ r => last_char r
  end.

Definition ends_sentence (s : string) : Prop :=
  ∃ c, last_char s = Some c ∧ Chars.is_ending c = true.

(** The maximal runs of characters that are not white space. *)
Definition nonspace (c : ascii) : bool := negb (Chars.isspace c).

Definition words (s : string) : list string := Re.findall nonspace s.

(** Every character of [s] satisfies [cls]. *)
Fixpoint all_chars (cls : ascii → bool) (s : string) : bool :=
  match s with
  | EmptyString => true
  | String c r => cls c && all_chars cls r
  end.

Definition islower_ascii (c : ascii) : bool := Chars.between 97 122 c.

(** The pieces of [s] between line feeds, as [s.split("\n")] gives
    them: the piece being read and the later ones. *)
Fixpoint split_lines_from (s : string) : string * list string :=
  match s with
  | EmptyString => (EmptyString, [])
  | String c r =>
      let '(h, t) := split_lines_from r in
      if Ascii.eqb c "010" then (EmptyString, h :: t) else (String c h, t)
  end.

Definition split_lines (s : string) : list string :=
  let '(h, t) := split_lines_from s in h :: t.

(** A tag with one of the names [names]. *)
Definition tag_in (names : list string) (e : PageElement) : Prop :=
  match e with
  | Tag n _ => n ∈ names
  | _ => False
  end.

(** * Properties *)

(** ** Stable sorting *)

Section stable_sort_facts.
Context {A : Type}.
Implicit Types (ahead : A → A → bool) (l : list A).

Lemma insert_stable_perm ahead x l : insert_stable ahead x l ≡ₚ x :: l.
Proof.
  induction l as [|y r IH]; simpl; [done|].
  destruct (ahead x y); [done|].
  rewrite IH. apply perm_swap.
Qed.

Lemma sort_stable_perm ahead l : sort_stable ahead l ≡ₚ l.
Proof.
  induction l as [|x r IH]; simpl; [done|].
  by rewrite insert_stable_perm, IH.
Qed.

Lemma sort_stable_length ahead l : length (sort_stable ahead l) = length l.
Proof. by rewrite sort_stable_perm. Qed.

Lemma elem_of_sort_stable ahead l x : x ∈ sort_stable ahead l ↔ x ∈ l.
Proof. by rewrite sort_stable_perm. Qed.

Lemma insert_stable_ext ahead ahead' x l :
  (∀ y, y ∈ l → ahead x y = ahead' x y) →
  insert_stable ahead x l = insert_stable ahead' x l.
Proof.
  induction l as [|y r IH]; intros H; simpl; [done|].
  rewrite <- (H y) by left.
  destruct (ahead x y); [done|].
  f_equal. apply IH. intros z Hz. apply H. by right.
Qed.

Lemma sort_stable_ext ahead ahead' l :
  (∀ x y, x ∈ l → y ∈ l → ahead x y = ahead' x y) →
  sort_stable ahead l = sort_stable ahead' l.
Proof.
  induction l as [|x r IH]; intros H; simpl; [done|].
  rewrite <- IH by (intros; apply H; by right).
  apply insert_stable_ext. intros y Hy.
  apply H; [by left|]. right. by apply elem_of_sort_stable in Hy.
Qed.

(** The sort commutes with a decoration of the elements. *)
Lemma insert_stable_fmap {B} (f : B → A) ahead x (l : list B) :
  insert_stable ahead (f x) (f <$> l)
  = f <$> insert_stable (λ a b, ahead (f a) (f b)) x l.
Proof.
  induction l as [|y r IH]; csimpl; [done|].
  destruct (ahead (f x) (f y)); csimpl; [done|]. by rewrite IH.
Qed.

Lemma sort_stable_fmap {B} (f : B → A) ahead (l : list B) :
  sort_stable ahead (f <$> l)
  = f <$> sort_stable (λ a b, ahead (f a) (f b)) l.
Proof.
  induction l as [|x r IH]; csimpl; [done|].
  by rewrite IH, insert_stable_fmap.
Qed.

(** Sortedness.  [P] relates an element to the ones behind it in the
    input; [R] is the order of the output. *)
Section sorted.
Context (ahead : A → A → bool) (P R : relation A).
Hypothesis ahead_true : ∀ x y, ahead x y = true → P x y → R x y.
Hypothesis ahead_false : ∀ x y, ahead x y = false → R y x.
Hypothesis R_trans : Transitive R.

Lemma insert_stable_sorted x l :
  Forall (P x) l → StronglySorted R l →
  StronglySorted R (insert_stable ahead x l).
Proof.
  induction l as [|y r IH]; intros HP Hs; simpl.
  - repeat constructor.
  - apply Forall_cons in HP as [HPy HPr].
    apply StronglySorted_cons in Hs as [Hy Hr].
    destruct (ahead x y) eqn:E.
    + assert (R x y) by auto.
      apply StronglySorted_cons. split.
      * constructor; [done|].
        eapply Forall_impl; [exact Hy|]. intros z Hz. by trans y.
      * by apply StronglySorted_cons.
    + apply StronglySorted_cons. split; [|auto].
      rewrite insert_stable_perm. constructor; auto.
Qed.

Lemma sort_stable_sorted l :
  StronglySorted P l → StronglySorted R (sort_stable ahead l).
Proof.
  induction l as [|x r IH]; intros Hs; simpl; [constructor|].
  apply StronglySorted_cons in Hs as [Hx Hr].
  apply insert_stable_sorted; [|auto].
  by rewrite sort_stable_perm.
Qed.
End sorted.
End stable_sort_facts.

Lemma sorted_perm {A} (key : A → nat) l : sorted key l ≡ₚ l.
Proof. apply sort_stable_perm. Qed.

Lemma sorted_reverse_perm {A} (key : A → nat) l : sorted_reverse key l ≡ₚ l.
Proof. apply sort_stable_perm. Qed.

Lemma sorted_ascending {A} (key : A → nat) l :
  StronglySorted (λ a b, key a ≤ key b)%nat (sorted key l).
Proof.
  apply (sort_stable_sorted _ (λ _ _, True)).
  - intros x y H _. by apply Nat.leb_le in H.
  - intros x y H. apply Nat.leb_gt in H. lia.
  - intros x y z ??. lia.
  - induction l; constructor; [done|]. by apply Forall_true.
Qed.

Lemma nlargest_length {A} (n : Z) (l : list A) key :
  length (nlargest n l key) = (Z.to_nat n `min` length l)%nat.
Proof. unfold nlargest. by rewrite length_take, sorted_reverse_perm. Qed.

Lemma nlargest_sublist_perm {A} (n : Z) (l : list A) key :
  nlargest n l key ⊆+ l.
Proof.
  unfold nlargest. rewrite <- (sorted_reverse_perm key l) at 2.
  apply sublist_submseteq, sublist_take.
Qed.

Lemma nlargest_NoDup {A} (n : Z) (l : list A) key :
  NoDup l → NoDup (nlargest n l key).
Proof.
  intros H. unfold nlargest.
  apply (sublist_NoDup _ (sorted_reverse key l)); [|apply sublist_take].
  by rewrite sorted_reverse_perm.
Qed.

Lemma nlargest_all {A} (n : Z) (l : list A) key :
  Z.of_nat (length l) ≤ n → nlargest n l key ≡ₚ l.
Proof.
  intros H. unfold nlargest.
  rewrite take_ge by (rewrite sorted_reverse_perm; lia).
  apply sorted_reverse_perm.
Qed.

Lemma nlargest_ext {A} (n : Z) (l : list A) key key' :
  (∀ x, x ∈ l → key x = key' x) → nlargest n l key = nlargest n l key'.
Proof.
  intros H. unfold nlargest, sorted_reverse. f_equal.
  apply sort_stable_ext. intros x y Hx Hy. by rewrite (H x), (H y).
Qed.

(** ** Subsequences *)

Section subsequence_facts.
Context {A : Type}.
Implicit Types (l out : list A) (positions : list nat).

Lemma sublist_subsequence out l : out `sublist_of` l → subsequence out l.
Proof.
  induction 1 as [|x out l _ (ps & Hs & Hl)|x out l _ (ps & Hs & Hl)].
  - exists []. split; constructor.
  - exists (0%nat :: (S <$> ps)). split.
    + constructor.
      * eapply StronglySorted_fmap; [|exact Hs]. intros; simpl; lia.
      * apply Forall_fmap, Forall_true. intros; simpl; lia.
    + constructor; [done|]. by apply Forall2_fmap_l.
  - exists (S <$> ps). split.
    + eapply StronglySorted_fmap; [|exact Hs]. intros; simpl; lia.
    + by apply Forall2_fmap_l.
Qed.

Lemma positions_shift x l positions out :
  Forall (lt 0) positions →
  StronglySorted lt positions →
  Forall2 (λ i a, (x :: l) !! i = Some a) positions out →
  StronglySorted lt (pred <$> positions) ∧
  Forall2 (λ i a, l !! i = Some a) (pred <$> positions) out.
Proof.
  intros Hpos Hs Hl. split.
  - clear Hl. induction Hs as [|i ps Hs IH Hi]; csimpl; [constructor|].
    apply Forall_cons in Hpos as [Hi0 Hpos].
    constructor; [auto|].
    apply Forall_fmap. rewrite Forall_forall in Hi, Hpos |- *.
    intros j Hj. specialize (Hi j Hj). specialize (Hpos j Hj). simpl. lia.
  - clear Hs. induction Hl as [|i a ps out Hi Hl IH]; csimpl; [constructor|].
    apply Forall_cons in Hpos as [Hi0 Hpos].
    constructor; [|auto].
    destruct i as [|i]; [lia|done].
Qed.

Lemma subsequence_sublist out l : subsequence out l → out `sublist_of` l.
Proof.
  intros (ps & Hs & Hl). revert ps out Hs Hl.
  induction l as [|x l IH]; intros ps out Hs Hl.
  - destruct Hl as [|i a ps out Hi _]; [constructor|done].
  - destruct ps as [|i ps].
    { apply Forall2_nil_inv_l in Hl as ->. apply sublist_nil_l. }
    apply Forall2_cons_inv_l in Hl as (a & out' & Hi & Hl & ->).
    pose proof Hs as Hs0.
    apply StronglySorted_cons in Hs as [Hlt Hs].
    destruct i as [|i]; simpl in Hi.
    + injection Hi as ->. apply sublist_skip.
      destruct (positions_shift a l ps out') as [Hs' Hl']; [|done|done|].
      * eapply Forall_impl; [exact Hlt|]. intros; simpl in *; lia.
      * by apply (IH (pred <$> ps)).
    + apply sublist_cons.
      destruct (positions_shift x l (S i :: ps) (a :: out'))
        as [Hs' Hl']; [|done|by constructor|].
      * constructor; [lia|].
        eapply Forall_impl; [exact Hlt|]. intros; simpl in *; lia.
      * by apply (IH (pred <$> S i :: ps)).
Qed.

Lemma subsequence_iff out l : subsequence out l ↔ out `sublist_of` l.
Proof. split; [apply subsequence_sublist|apply sublist_subsequence]. Qed.
End subsequence_facts.

(** ** [list.index] and the sort on it *)

Section index_facts.
Implicit Types (l out : list string) (x y : string).

Lemma index_is_Some l x : x ∈ l → is_Some (index l x).
Proof.
  induction l as [|y r IH]; intros Hx; [by apply elem_of_nil in Hx|].
  simpl. destruct (decide (x = y)); [by eexists|].
  apply elem_of_cons in Hx as [?|Hx]; [done|].
  destruct (IH Hx) as [i ->]. by eexists.
Qed.

Lemma index_lookup l x i : index l x = Some i → l !! i = Some x.
Proof.
  revert i. induction l as [|y r IH]; intros i; simpl; [done|].
  destruct (decide (x = y)) as [->|].
  - by intros [= <-].
  - destruct (index r x) as [j|] eqn:E; [|done].
    intros [= <-]. by apply IH.
Qed.

(** The position found is the first one. *)
Lemma index_first l x i j :
  index l x = Some i → (j < i)%nat → l !! j ≠ Some x.
Proof.
  revert i j. induction l as [|y r IH]; intros i j; simpl; [done|].
  destruct (decide (x = y)) as [->|Hne].
  - intros [= <-] ?. lia.
  - destruct (index r x) as [k|] eqn:E; [|done].
    intros [= <-] Hj. destruct j as [|j]; simpl.
    + congruence.
    + apply (IH k); [done|lia].
Qed.

Lemma index_key_head x l : index_key (x :: l) x = 0%nat.
Proof. unfold index_key. simpl. by rewrite decide_True. Qed.

Lemma index_key_tail x y l :
  y ≠ x → y ∈ l → index_key (x :: l) y = S (index_key l y).
Proof.
  intros Hne Hy. unfold index_key. simpl. rewrite decide_False by done.
  by destruct (index_is_Some l y Hy) as [i ->].
Qed.

Lemma mapM_index l out :
  out ⊆ l → mapM (index l) out = Some (index_key l <$> out).
Proof.
  intros Hsub. apply mapM_Some.
  induction out as [|x r IH]; csimpl; constructor.
  - unfold index_key.
    destruct (index_is_Some l x) as [i ->]; [apply Hsub; by left|done].
  - apply IH. intros y Hy. apply Hsub. by right.
Qed.

Lemma zip_decorate {B} (f : string → B) out :
  zip (f <$> out) out = (λ s, (f s, s)) <$> out.
Proof. induction out as [|x r IH]; csimpl; [done|]. by rewrite IH. Qed.

(** The source's sort succeeds on elements of [sentences] and is the
    stable sort on the first position. *)
Lemma sort_by_index_Ok l out :
  out ⊆ l → sort_by_index l out = Ok (sorted (index_key l) out).
Proof.
  intros Hsub. unfold sort_by_index. rewrite (mapM_index l out Hsub).
  f_equal. rewrite zip_decorate. unfold sorted.
  rewrite (sort_stable_fmap (λ s, (index_key l s, s))
             (λ x y : nat * string, (x.1 <=? y.1)%nat)).
  rewrite <- list_fmap_compose. simpl. apply list_fmap_id.
Qed.

Lemma sort_by_index_Ok_inv l top out :
  sort_by_index l top = Ok out → top ⊆ l.
Proof.
  unfold sort_by_index. destruct (mapM (index l) top) as [keys|] eqn:E;
    [|done].
  intros _ x Hx. apply mapM_Some in E.
  apply list_elem_of_lookup in Hx as [i Hi].
  destruct (Forall2_lookup_l _ _ _ _ _ E Hi) as (k & _ & Hk).
  apply index_lookup in Hk. by eapply list_elem_of_lookup_2.
Qed.

(** A list that is strictly increasing in the first input position of
    its elements is a sublist of the input. *)
Lemma index_sorted_tail x l out :
  Forall (λ y, y ≠ x ∧ y ∈ l) out →
  StronglySorted (λ a b, index_key (x :: l) a < index_key (x :: l) b)%nat
    out →
  StronglySorted (λ a b, index_key l a < index_key l b)%nat out.
Proof.
  induction out as [|a r IH]; intros Hall Hs; [constructor|].
  apply Forall_cons in Hall as [[Ha1 Ha2] Hall].
  apply StronglySorted_cons in Hs as [Ha Hs].
  constructor; [auto|].
  rewrite Forall_forall in Ha, Hall |- *. intros b Hb.
  specialize (Ha b Hb). destruct (Hall b Hb) as [Hb1 Hb2].
  rewrite !index_key_tail in Ha by done. lia.
Qed.

Lemma index_sorted_sublist l out :
  out ⊆ l →
  StronglySorted (λ a b, index_key l a < index_key l b)%nat out →
  out `sublist_of` l.
Proof.
  revert out. induction l as [|x l IH]; intros out Hsub Hs.
  - destruct out as [|a r]; [constructor|].
    specialize (Hsub a). rewrite elem_of_nil in Hsub.
    destruct Hsub. by left.
  - destruct out as [|a r]; [apply sublist_nil_l|].
    pose proof Hs as Hs0.
    apply StronglySorted_cons in Hs as [Ha Hs].
    assert (Hr : Forall (λ y, y ≠ x ∧ y ∈ l) r).
    { rewrite Forall_forall in Ha |- *. intros b Hb.
      specialize (Ha b Hb).
      assert (b ≠ x) by (intros ->; rewrite index_key_head in Ha; lia).
      split; [done|].
      assert (b ∈ x :: l) as Hbl by (apply Hsub; by right).
      by apply elem_of_cons in Hbl as [?|?]. }
    destruct (decide (a = x)) as [->|Hne].
    + apply sublist_skip, IH.
      * intros b Hb. rewrite Forall_forall in Hr. by apply Hr.
      * by apply (index_sorted_tail x).
    + apply sublist_cons, IH.
      * intros b Hb. apply elem_of_cons in Hb as [->|Hb].
        -- assert (a ∈ x :: l) as Hal by (apply Hsub; by left).
           by apply elem_of_cons in Hal as [?|?].
        -- rewrite Forall_forall in Hr. by apply Hr.
      * apply (index_sorted_tail x); [|done].
        constructor; [|done]. split; [done|].
        assert (a ∈ x :: l) as Hal by (apply Hsub; by left).
        by apply elem_of_cons in Hal as [?|?].
Qed.

Lemma index_key_inj l x y :
  x ∈ l → y ∈ l → index_key l x = index_key l y → x = y.
Proof.
  intros Hx Hy. unfold index_key.
  destruct (index_is_Some l x Hx) as [i Hi].
  destruct (index_is_Some l y Hy) as [j Hj].
  rewrite Hi, Hj. simpl. intros ->.
  apply index_lookup in Hi, Hj. congruence.
Qed.

(** Sorting distinct elements of the input on their first position
    gives a sublist of the input. *)
Lemma sorted_index_sublist l out :
  out ⊆ l → NoDup out → sorted (index_key l) out `sublist_of` l.
Proof.
  intros Hsub Hnd. apply index_sorted_sublist.
  - intros x Hx. apply Hsub. by rewrite sorted_perm in Hx.
  - assert (Hnd' : NoDup (sorted (index_key l) out))
      by (by rewrite sorted_perm).
    assert (Hsub' : sorted (index_key l) out ⊆ l)
      by (intros x Hx; apply Hsub; by rewrite sorted_perm in Hx).
    pose proof (sorted_ascending (index_key l) out) as Hs.
    induction Hs as [|a r Hs IH Ha]; [constructor|].
    apply NoDup_cons in Hnd' as [Hnotin Hnd'].
    constructor.
    + apply IH; [done|]. intros b Hb. apply Hsub'. by right.
    + rewrite Forall_forall in Ha |- *. intros b Hb.
      specialize (Ha b Hb).
      destruct (decide (index_key l a = index_key l b)) as [E|]; [|lia].
      apply index_key_inj in E; [by subst|apply Hsub'; by left|].
      apply Hsub'. by right.
Qed.
End index_facts.

(** ** The word-frequency table *)

Section counter_facts.
Implicit Types (m : gmap string nat) (w : string) (l : list string).

Lemma counter_get_incr m w v :
  counter_get (counter_incr m v) w
  = (counter_get m w + if decide (w = v) then 1 else 0)%nat.
Proof.
  unfold counter_incr, counter_get at 1.
  destruct (decide (w = v)) as [->|Hne].
  - rewrite lookup_insert_eq. simpl. lia.
  - rewrite lookup_insert_ne by done. fold (counter_get m w). lia.
Qed.

Lemma counter_incr_comm m v1 v2 :
  counter_incr (counter_incr m v1) v2 = counter_incr (counter_incr m v2) v1.
Proof.
  destruct (decide (v1 = v2)) as [->|Hne]; [done|].
  unfold counter_incr at 1 3.
  rewrite !counter_get_incr, !decide_False by done.
  unfold counter_incr. rewrite !Nat.add_0_r.
  by apply insert_insert_ne.
Qed.

(** The table after a run of increments depends on the words only, not
    on their order. *)
Lemma foldl_counter_incr_perm l1 l2 :
  l1 ≡ₚ l2 → ∀ m, foldl counter_incr m l1 = foldl counter_incr m l2.
Proof.
  induction 1 as [|x l1 l2 _ IH|x y l|l1 l2 l3 _ IH1 _ IH2];
    intros m; simpl.
  - done.
  - apply IH.
  - by rewrite counter_incr_comm.
  - by rewrite IH1.
Qed.

Lemma counter_get_foldl_incr m l w :
  NoDup l →
  counter_get (foldl counter_incr m l) w
  = (counter_get m w + if decide (w ∈ l) then 1 else 0)%nat.
Proof.
  intros Hnd. revert m.
  induction Hnd as [|x l Hx Hnd IH]; intros m; cbn [foldl].
  - case_decide as H; [by apply elem_of_nil in H|lia].
  - rewrite IH, counter_get_incr.
    repeat case_decide; subst; try lia.
    all: rewrite ?elem_of_cons in *; tauto.
Qed.

Lemma positive_counts_empty : positive_counts ∅.
Proof. intros w. by rewrite lookup_empty. Qed.

Lemma positive_counts_incr m v :
  positive_counts m → positive_counts (counter_incr m v).
Proof.
  intros Hm w. unfold counter_incr.
  destruct (decide (v = w)) as [->|Hne].
  - by rewrite lookup_insert_eq.
  - rewrite lookup_insert_ne by done. apply Hm.
Qed.

Lemma positive_counts_foldl m l :
  positive_counts m → positive_counts (foldl counter_incr m l).
Proof.
  revert m. induction l as [|x l IH]; intros m Hm; simpl; [done|].
  by apply IH, positive_counts_incr.
Qed.

Lemma positive_counts_lookup m w :
  positive_counts m → m !! w = None ↔ counter_get m w = 0%nat.
Proof.
  intros Hm. unfold counter_get. specialize (Hm w).
  destruct (m !! w) as [[|n]|]; simpl; split; try done.
Qed.
End counter_facts.

Section summarizer_facts.
Variable set_iter : gset string → list string.
Hypothesis set_iter_perm : ∀ X, set_iter X ≡ₚ elements X.

Implicit Types (m : gmap string nat) (w s : string).
Implicit Types (filtered sentences : list string).

Lemma set_iter_NoDup X : NoDup (set_iter X).
Proof. rewrite set_iter_perm. apply NoDup_elements. Qed.

Lemma elem_of_set_iter X w : w ∈ set_iter X ↔ w ∈ X.
Proof. rewrite set_iter_perm. apply elem_of_elements. Qed.

(** The iteration order over a set does not show in the table. *)
Lemma count_sentence_order m s :
  count_sentence set_iter m s = count_sentence elements m s.
Proof.
  unfold count_sentence. destruct (tokenize_sentence s); [done|].
  apply foldl_counter_incr_perm, set_iter_perm.
Qed.

Lemma build_word_freq_order filtered :
  build_word_freq set_iter filtered = build_word_freq elements filtered.
Proof.
  unfold build_word_freq. generalize (∅ : gmap string nat).
  induction filtered as [|s r IH]; intros m; simpl; [done|].
  by rewrite count_sentence_order, IH.
Qed.

(** One sentence adds one to the count of each of its distinct
    significant words. *)
Lemma counter_get_count_sentence m s w :
  counter_get (count_sentence set_iter m s) w
  = (counter_get m w
     + if decide (w ∈ tokenize_sentence s) then 1 else 0)%nat.
Proof.
  unfold count_sentence.
  destruct (tokenize_sentence s) as [|w0 ws] eqn:E.
  - rewrite decide_False by apply not_elem_of_nil. lia.
  - rewrite counter_get_foldl_incr by apply set_iter_NoDup.
    destruct (decide (w ∈ w0 :: ws)) as [Hin|Hin].
    + rewrite decide_True; [done|].
      by apply elem_of_set_iter, elem_of_list_to_set.
    + rewrite decide_False; [done|].
      by rewrite elem_of_set_iter, elem_of_list_to_set.
Qed.

Lemma counter_get_foldl_count m filtered w :
  counter_get (foldl (count_sentence set_iter) m filtered) w
  = (counter_get m w
     + length (filter (λ s, w ∈ tokenize_sentence s) filtered))%nat.
Proof.
  revert m. induction filtered as [|s r IH]; intros m; simpl; [lia|].
  rewrite IH, counter_get_count_sentence, filter_cons.
  destruct (decide (w ∈ tokenize_sentence s)); simpl; lia.
Qed.

(** The count of a word is the number of filtered sentences that
    contain it. *)
Lemma counter_get_build_word_freq filtered w :
  counter_get (build_word_freq set_iter filtered) w
  = length (filter (λ s, w ∈ tokenize_sentence s) filtered).
Proof.
  unfold build_word_freq. rewrite counter_get_foldl_count.
  unfold counter_get. by rewrite lookup_empty.
Qed.

Lemma positive_counts_build filtered :
  positive_counts (build_word_freq set_iter filtered).
Proof.
  unfold build_word_freq.
  assert (H : positive_counts (∅ : gmap string nat))
    by apply positive_counts_empty.
  revert H. generalize (∅ : gmap string nat).
  induction filtered as [|s r IH]; intros m Hm; simpl; [done|].
  apply IH. unfold count_sentence.
  destruct (tokenize_sentence s); [done|].
  by apply positive_counts_foldl.
Qed.

(** The table is empty exactly when no filtered sentence has a
    significant word. *)
Lemma build_word_freq_empty filtered :
  build_word_freq set_iter filtered = ∅
  ↔ Forall (λ s, tokenize_sentence s = []) filtered.
Proof.
  rewrite map_empty. split.
  - intros H. apply Forall_forall. intros s Hs.
    destruct (tokenize_sentence s) as [|w ws] eqn:E; [done|].
    specialize (H w).
    apply positive_counts_lookup in H; [|apply positive_counts_build].
    rewrite counter_get_build_word_freq in H.
    apply length_zero_iff_nil in H.
    assert (s ∈ filter (λ s, w ∈ tokenize_sentence s) filtered) as Hin.
    { apply list_elem_of_filter. split; [|done]. rewrite E. left. }
    rewrite H in Hin. by apply elem_of_nil in Hin.
  - intros H w.
    apply positive_counts_lookup; [apply positive_counts_build|].
    rewrite counter_get_build_word_freq.
    apply length_zero_iff_nil.
    induction H as [|s r Hs _ IH]; [done|].
    rewrite filter_cons, decide_False; [done|].
    rewrite Hs. apply not_elem_of_nil.
Qed.

(** The score table holds the score of every filtered sentence. *)
Lemma lookup_build_sentence_scores word_freq filtered s :
  s ∈ filtered →
  build_sentence_scores word_freq filtered !! s
  = Some (sentence_score word_freq s).
Proof.
  unfold build_sentence_scores. generalize (∅ : gmap string nat).
  induction filtered as [|x r IH] using rev_ind; intros m Hs.
  - by apply elem_of_nil in Hs.
  - rewrite foldl_app. simpl.
    destruct (decide (s = x)) as [->|Hne].
    + by rewrite lookup_insert_eq.
    + rewrite lookup_insert_ne by done. apply IH.
      apply elem_of_app in Hs as [?|Hs]; [done|].
      by apply list_elem_of_singleton in Hs.
Qed.

Lemma scores_get_build word_freq filtered s :
  s ∈ filtered →
  scores_get (build_sentence_scores word_freq filtered) s
  = sentence_score word_freq s.
Proof.
  intros Hs. unfold scores_get.
  by rewrite lookup_build_sentence_scores.
Qed.

Lemma filter_sentences_subseteq sentences min_chars :
  filter_sentences sentences min_chars ⊆ sentences.
Proof.
  intros s Hs. unfold filter_sentences in Hs.
  by apply list_elem_of_filter in Hs as [_ ?].
Qed.

Lemma top_sentences_subseteq sentences max_sentences min_chars :
  top_sentences set_iter sentences max_sentences min_chars ⊆ sentences.
Proof.
  intros s Hs. apply (filter_sentences_subseteq sentences min_chars).
  eapply elem_of_submseteq; [exact Hs|]. apply nlargest_sublist_perm.
Qed.

(** What [summarize_sentences] returns, case by case. *)
Lemma summarize_sentences_unfold sentences max_sentences min_chars :
  let filtered := filter_sentences sentences min_chars in
  summarize_sentences_with set_iter sentences max_sentences min_chars
  = if decide (filtered = []) then
      Raise (ScraperError
        "Not enough substantial sentences were found to build a summary.")
    else if decide (Forall (λ s, tokenize_sentence s = []) filtered) then
      Raise (ScraperError
        "Failed to compute word frequencies for summarization.")
    else
      Ok (sorted (index_key sentences)
            (top_sentences set_iter sentences max_sentences min_chars)).
Proof.
  intros filtered. unfold summarize_sentences_with. fold filtered.
  destruct (decide (filtered = [])) as [|Hne]; [done|].
  destruct (decide (build_word_freq set_iter filtered = ∅)) as [He|He].
  - rewrite decide_True; [done|]. by apply build_word_freq_empty.
  - rewrite decide_False by (by rewrite <- build_word_freq_empty).
    assert (Htop :
      nlargest max_sentences filtered
        (scores_get (build_sentence_scores
           (build_word_freq set_iter filtered) filtered))
      = top_sentences set_iter sentences max_sentences min_chars).
    { apply nlargest_ext. intros s Hs. by apply scores_get_build. }
    rewrite Htop. apply sort_by_index_Ok, top_sentences_subseteq.
Qed.
End summarizer_facts.

(** ** Strings: stripping and white space *)

Section string_facts.
Implicit Types (c d : ascii) (s r h : string).

Lemma isspace_space : Chars.isspace " " = true.
Proof. reflexivity. Qed.

Lemma lstrip_nonspace s : starts_nonspace s → Str.lstrip s = s.
Proof. destruct s as [|c r]; simpl; [done|]. by intros ->. Qed.

Lemma rstrip_cons c r :
  Str.rstrip r = r → Chars.isspace c = false ∨ r ≠ EmptyString →
  Str.rstrip (String c r) = String c r.
Proof.
  intros Hr Hc. simpl. rewrite Hr.
  destruct Hc as [->|Hne].
  - by rewrite andb_false_r.
  - by destruct r.
Qed.

Lemma strip_fixed s :
  starts_nonspace s → Str.rstrip s = s → Str.strip s = s.
Proof. intros H1 H2. unfold Str.strip. rewrite H2. by apply lstrip_nonspace. Qed.

Lemma join_cons_head sep c h (t : list string) :
  Str.join sep (String c h :: t) = String c (Str.join sep (h :: t)).
Proof. unfold Str.join. simpl. by destruct t. Qed.

Lemma join_empty_head h (t : list string) :
  Str.join " " (EmptyString :: h :: t) = String " " (Str.join " " (h :: t)).
Proof. reflexivity. Qed.

Lemma all_space_lstrip s : Str.all_space s = true ↔ Str.lstrip s = EmptyString.
Proof.
  induction s as [|c r IH]; simpl; [done|].
  destruct (Chars.isspace c); simpl; [done|]. split; done.
Qed.

Lemma all_space_rstrip s : Str.all_space (Str.rstrip s) = Str.all_space s.
Proof.
  induction s as [|c r IH]; simpl; [done|].
  destruct (Str.rstrip r) as [|d r'] eqn:E; simpl in *.
  - destruct (Chars.isspace c) eqn:Ec; simpl; by rewrite ?Ec, <- ?IH.
  - by rewrite IH.
Qed.

(** Stripping leaves nothing exactly of the strings of white space. *)
Lemma strip_empty s :
  Str.strip s = EmptyString ↔ Str.all_space s = true.
Proof.
  unfold Str.strip. by rewrite <- all_space_lstrip, all_space_rstrip.
Qed.

Lemma all_space_sub_spaces_from b s :
  Str.all_space (Re.sub_spaces_from b s) = Str.all_space s.
Proof.
  revert b. induction s as [|c r IH]; intros b; simpl; [done|].
  destruct (Chars.isspace c) eqn:E; simpl.
  - destruct b; [apply IH|].
    change (Str.all_space (String " " ?x)) with (Str.all_space x).
    apply IH.
  - by rewrite E, IH.
Qed.

(** The cleaned text is empty exactly when the raw text is white
    space only. *)
Lemma clean_text_empty raw :
  clean_text raw = EmptyString ↔ Str.all_space raw = true.
Proof.
  unfold clean_text, Re.sub_spaces.
  by rewrite strip_empty, all_space_sub_spaces_from.
Qed.

Lemma is_empty_true s : Str.is_empty s = true ↔ s = EmptyString.
Proof. by destruct s. Qed.

Lemma is_empty_false s : Str.is_empty s = false ↔ s ≠ EmptyString.
Proof. by destruct s. Qed.
End string_facts.

(** ** Segmentation of normalized text *)

Section split_facts.
Implicit Types (c d : ascii) (s r h : string) (t : list string).

Lemma whole_piece_strip h : whole_piece h → Str.strip h = h.
Proof. intros [??]. by apply strip_fixed. Qed.

Lemma whole_piece_nonempty h : whole_piece h → h ≠ EmptyString.
Proof. intros [H _]. by destruct h. Qed.

Lemma split_endings_from_nonspace in_sep after_end c r :
  Chars.isspace c = false →
  Re.split_endings_from in_sep after_end (String c r)
  = Re.split_endings_from false false (String c r).
Proof. intros H. simpl. by rewrite H. Qed.

Lemma single_spaced_tail c r :
  single_spaced (String c r) = true → single_spaced r = true.
Proof.
  cbn [single_spaced]. destruct (Chars.isspace c); [|done].
  intros H. by apply andb_prop in H as [_ ?].
Qed.

Lemma single_spaced_space c r :
  single_spaced (String c r) = true → Chars.isspace c = true →
  c = " "%char ∧ starts_nonspace r.
Proof.
  cbn [single_spaced]. intros H Hc. rewrite Hc in H.
  apply andb_prop in H as [H _]. apply andb_prop in H as [H1 H2].
  split; [by apply bool_decide_eq_true in H1|].
  destruct r as [|d r']; [done|]. simpl. by apply negb_true_iff.
Qed.

(** On single-spaced text the pieces joined by one space give the text
    back, and every piece but the one being read is kept whole. *)
Lemma split_endings_from_single_spaced s after_end :
  single_spaced s = true →
  ∀ h t, Re.split_endings_from false after_end s = (h, t) →
    Str.join " " (h :: t) = s ∧ Forall whole_piece t ∧
    Str.rstrip h = h ∧ (starts_nonspace s → starts_nonspace h).
Proof.
  revert after_end. induction s as [|c r IH]; intros after_end Hs h t.
  - simpl. intros [= <- <-]. by repeat split.
  - pose proof (single_spaced_tail c r Hs) as Hr.
    cbn [Re.split_endings_from].
    destruct (Chars.isspace c) eqn:Ec.
    + destruct (single_spaced_space c r Hs Ec) as [-> Hnr].
      destruct r as [|d r']; [done|]. simpl in Hnr.
      destruct after_end.
      * rewrite (split_endings_from_nonspace true false d r' Hnr).
        destruct (Re.split_endings_from false false (String d r'))
          as [h' t'] eqn:E.
        intros [= <- <-].
        destruct (IH false Hr h' t' E) as (Hj & Ht & Hh & Hst).
        repeat split.
        -- by rewrite join_empty_head, Hj.
        -- constructor; [|done]. split; [by apply Hst|done].
        -- done.
      * destruct (Re.split_endings_from false false (String d r'))
          as [h' t'] eqn:E.
        intros [= <- <-].
        destruct (IH false Hr h' t' E) as (Hj & Ht & Hh & Hst).
        repeat split.
        -- by rewrite join_cons_head, Hj.
        -- done.
        -- apply rstrip_cons; [done|]. right.
           specialize (Hst Hnr). by destruct h'.
        -- simpl. congruence.
    + destruct (Re.split_endings_from false (Chars.is_ending c) r)
        as [h' t'] eqn:E.
      intros [= <- <-].
      destruct (IH _ Hr h' t' E) as (Hj & Ht & Hh & Hst).
      repeat split.
      * by rewrite join_cons_head, Hj.
      * done.
      * apply rstrip_cons; [done|by left].
      * done.
Qed.

Lemma split_sentences_whole t :
  Forall whole_piece t →
  map Str.strip (filter (λ x, Str.strip x ≠ EmptyString) t) = t.
Proof.
  induction 1 as [|h t Hh _ IH]; [done|].
  rewrite filter_cons, decide_True.
  - simpl. by rewrite IH, whole_piece_strip.
  - rewrite whole_piece_strip by done. by apply whole_piece_nonempty.
Qed.

Lemma split_sentences_nonempty text :
  Forall (λ s, s ≠ EmptyString) (split_sentences text).
Proof.
  unfold split_sentences. apply Forall_forall. intros s Hs.
  apply list_elem_of_In, in_map_iff in Hs as (x & <- & Hx).
  apply list_elem_of_In, list_elem_of_filter in Hx as [Hx _]. done.
Qed.

Lemma split_sentences_normalized text :
  normalized text = true → text ≠ EmptyString →
  Str.join " " (split_sentences text) = text.
Proof.
  intros Hn Hne. destruct text as [|c r]; [done|].
  apply andb_prop in Hn as [Hc Hs]. apply negb_true_iff in Hc.
  unfold split_sentences, Re.split_endings.
  destruct (Re.split_endings_from false false (String c r))
    as [h t] eqn:E.
  destruct (split_endings_from_single_spaced _ _ Hs h t E)
    as (Hj & Ht & Hh & Hst).
  rewrite split_sentences_whole; [done|].
  constructor; [|done]. split; [by apply Hst|done].
Qed.
End split_facts.

(** ** Cleaned text is normalized *)

Section clean_facts.
Implicit Types (c d : ascii) (s r : string).

Lemma sub_spaces_from_loosely b s :
  loosely_spaced (Re.sub_spaces_from b s) = true ∧
  (b = true →
   match Re.sub_spaces_from b s with
   | EmptyString => True
   | String d _ => Chars.isspace d = false
   end).
Proof.
  revert b. induction s as [|c r IH]; intros b; [done|].
  cbn [Re.sub_spaces_from].
  destruct (Chars.isspace c) eqn:Ec.
  - destruct b; [apply IH|].
    destruct (IH true) as [IH1 IH2]. specialize (IH2 eq_refl).
    split; [|done]. cbn [loosely_spaced]. rewrite isspace_space, IH1.
    destruct (Re.sub_spaces_from true r); [done|]. by rewrite IH2.
  - destruct (IH false) as [IH1 _]. split; [|done].
    cbn [loosely_spaced]. by rewrite Ec, IH1.
Qed.

Lemma loosely_spaced_tail c r :
  loosely_spaced (String c r) = true → loosely_spaced r = true.
Proof. cbn [loosely_spaced]. intros H. by apply andb_prop in H as [_ ?]. Qed.

Lemma rstrip_head r d x :
  Str.rstrip r = String d x → ∃ y, r = String d y.
Proof.
  destruct r as [|c r']; [done|]. cbn [Str.rstrip].
  destruct (Str.is_empty (Str.rstrip r') && Chars.isspace c); [done|].
  intros [= -> _]. by eexists.
Qed.

Lemma rstrip_loosely s :
  loosely_spaced s = true → single_spaced (Str.rstrip s) = true.
Proof.
  induction s as [|c r IH]; intros Hs; [done|].
  pose proof (IH (loosely_spaced_tail c r Hs)) as IHr.
  cbn [Str.rstrip].
  destruct (Str.rstrip r) as [|d x] eqn:E.
  - destruct (Chars.isspace c) eqn:Ec; [done|].
    cbn [Str.is_empty andb single_spaced]. by rewrite Ec.
  - cbn [Str.is_empty andb].
    change (single_spaced (String c (String d x)))
      with (if Chars.isspace c
            then bool_decide (c = " "%char) && negb (Chars.isspace d)
                 && single_spaced (String d x)
            else single_spaced (String d x)).
    destruct (Chars.isspace c) eqn:Ec; [|done].
    destruct (rstrip_head r d x E) as [y ->].
    cbn [loosely_spaced] in Hs. rewrite Ec in Hs.
    apply andb_prop in Hs as [Hs _]. apply andb_prop in Hs as [H1 H2].
    by rewrite H1, H2, IHr.
Qed.

Lemma lstrip_single_spaced s :
  single_spaced s = true → normalized (Str.lstrip s) = true.
Proof.
  induction s as [|c r IH]; intros Hs; [done|].
  cbn [Str.lstrip]. destruct (Chars.isspace c) eqn:Ec.
  - by apply IH, (single_spaced_tail c).
  - unfold normalized. by rewrite Ec, Hs.
Qed.

(** The text that [extract_sentences] hands to [split_sentences] is
    normalized. *)
Lemma clean_text_normalized raw : normalized (clean_text raw) = true.
Proof.
  unfold clean_text, Str.strip, Re.sub_spaces.
  apply lstrip_single_spaced, rstrip_loosely, sub_spaces_from_loosely.
Qed.
End clean_facts.

(** ** Selection by [nlargest] is stable *)

Section selection_facts.
Context {A : Type} (score : A → nat).
Implicit Types (l : list A) (k i j : nat).

Lemma enumerate_snd k l : (enumerate k l).*2 = l.
Proof. revert k. induction l as [|x r IH]; intros k; csimpl; [done|]. by rewrite IH. Qed.

Lemma enumerate_length k l : length (enumerate k l) = length l.
Proof. by rewrite <- (enumerate_snd k l) at 2; rewrite length_fmap. Qed.

Lemma elem_of_enumerate k l i x :
  (i, x) ∈ enumerate k l ↔ (k ≤ i)%nat ∧ l !! (i - k)%nat = Some x.
Proof.
  revert k. induction l as [|y r IH]; intros k; simpl.
  - rewrite elem_of_nil. split; [done|]. by intros [_ ?].
  - rewrite elem_of_cons, IH. split.
    + intros [[= -> ->]|[Hk Hl]].
      * by rewrite Nat.sub_diag.
      * split; [lia|]. by replace (i - k)%nat with (S (i - S k)) by lia.
    + intros [Hk Hl]. destruct (decide (i = k)) as [->|Hne].
      * left. rewrite Nat.sub_diag in Hl. simpl in Hl. congruence.
      * right. split; [lia|].
        by replace (i - k)%nat with (S (i - S k)) in Hl by lia.
Qed.

Lemma enumerate_sorted k l :
  StronglySorted (λ a b : nat * A, a.1 < b.1)%nat (enumerate k l).
Proof.
  revert k. induction l as [|x r IH]; intros k; simpl; constructor; [done|].
  apply Forall_forall. intros [i y] Hy.
  apply elem_of_enumerate in Hy as [Hi _]. simpl. lia.
Qed.

Lemma enumerate_NoDup k l : NoDup (enumerate k l).
Proof.
  pose proof (enumerate_sorted k l) as Hs.
  induction Hs as [|a r _ IH Ha]; constructor; [|done].
  intros Hin. rewrite Forall_forall in Ha. specialize (Ha a Hin). lia.
Qed.

Lemma ranks_before_trans : Transitive (ranks_before score).
Proof. intros x y z. unfold ranks_before. lia. Qed.

Lemma sorted_reverse_enumerate k l :
  StronglySorted (ranks_before score)
    (sorted_reverse (score ∘ snd) (enumerate k l)).
Proof.
  apply (sort_stable_sorted _ (λ a b : nat * A, a.1 < b.1)%nat).
  - intros x y H Hlt. apply Nat.leb_le in H.
    unfold ranks_before. simpl in *. lia.
  - intros x y H. apply Nat.leb_gt in H.
    unfold ranks_before. simpl in *. lia.
  - apply ranks_before_trans.
  - apply enumerate_sorted.
Qed.

(** What [nlargest] keeps, with the position of each element: among
    elements of equal score the earlier is kept first, and no element
    left out has a larger score than one that is kept. *)
Lemma nlargest_stable (n : Z) l :
  ∃ picked : list (nat * A),
    picked.*2 = nlargest n l score ∧
    NoDup picked ∧
    (∀ i x, (i, x) ∈ picked → l !! i = Some x) ∧
    (∀ i j x y, (i < j)%nat → l !! i = Some x → (j, y) ∈ picked →
                score x = score y → (i, x) ∈ picked) ∧
    (∀ i j x y, (i, x) ∈ picked → l !! j = Some y → (j, y) ∉ picked →
                (score y ≤ score x)%nat).
Proof.
  set (D := sorted_reverse (score ∘ snd) (enumerate 0 l)).
  assert (HD : ∀ i x, (i, x) ∈ D ↔ l !! i = Some x).
  { intros i x. unfold D. rewrite sorted_reverse_perm, elem_of_enumerate.
    rewrite Nat.sub_0_r. split; [by intros [_ ?]|]. split; [lia|done]. }
  pose proof (sorted_reverse_enumerate 0 l) as Hs. fold D in Hs.
  rewrite <- (take_drop (Z.to_nat n) D) in Hs.
  assert (Hsplit : ∀ a, a ∈ D → a ∈ take (Z.to_nat n) D ∨ a ∈ drop (Z.to_nat n) D).
  { intros a Ha. rewrite <- (take_drop (Z.to_nat n) D) in Ha.
    by apply elem_of_app in Ha. }
  exists (take (Z.to_nat n) D). repeat split.
  - unfold nlargest, sorted_reverse. rewrite fmap_take. f_equal.
    pose proof (sort_stable_fmap snd (λ x y, (score y <=? score x)%nat)
                  (enumerate 0 l)) as H.
    rewrite enumerate_snd in H. symmetry. exact H.
  - apply (sublist_NoDup _ D); [|apply sublist_take].
    unfold D. rewrite sorted_reverse_perm. apply enumerate_NoDup.
  - intros i x Hx. apply HD. by eapply subseteq_take.
  - intros i j x y Hij Hi Hj Heq.
    destruct (Hsplit (i, x)) as [|Hd]; [by apply HD|done|].
    pose proof (StronglySorted_app_1_elem_of _ _ _ _ _ Hs Hj Hd) as Hr.
    unfold ranks_before in Hr. simpl in Hr. lia.
  - intros i j x y Hi Hj Hnot.
    destruct (Hsplit (j, y)) as [|Hd]; [by apply HD|done|].
    pose proof (StronglySorted_app_1_elem_of _ _ _ _ _ Hs Hi Hd) as Hr.
    unfold ranks_before in Hr. simpl in Hr. lia.
Qed.
End selection_facts.

(** ** The summarizer: results *)

Section summarize_results.
Variable set_iter : gset string → list string.
Hypothesis set_iter_perm : ∀ X, set_iter X ≡ₚ elements X.

Implicit Types (sentences out : list string) (max_sentences min_chars : Z).

Lemma filter_sentences_nil sentences min_chars :
  filter_sentences sentences min_chars = []
  ↔ Forall (λ s, Str.len s < min_chars) sentences.
Proof.
  unfold filter_sentences.
  induction sentences as [|s r IH]; [by split; constructor|].
  rewrite filter_cons, Forall_cons. case_decide as Hs.
  - split; [done|]. intros [? _]. lia.
  - rewrite IH. split; [|by intros [_ ?]]. split; [lia|done].
Qed.

Lemma summarize_sentences_Ok sentences max_sentences min_chars out :
  summarize_sentences_with set_iter sentences max_sentences min_chars
  = Ok out →
  out = sorted (index_key sentences)
          (top_sentences set_iter sentences max_sentences min_chars).
Proof.
  rewrite summarize_sentences_unfold by done.
  repeat case_decide; [done|done|]. by intros [= <-].
Qed.

(** The iteration order over the word sets does not show in the
    result. *)
Lemma summarize_sentences_order sentences max_sentences min_chars :
  summarize_sentences_with set_iter sentences max_sentences min_chars
  = summarize_sentences sentences max_sentences min_chars.
Proof.
  unfold summarize_sentences.
  rewrite !summarize_sentences_unfold by done.
  unfold top_sentences. by rewrite build_word_freq_order.
Qed.
End summarize_results.

(** C1, as the code has it.  Every summary that [summarize_sentences]
    returns is ordered by the first input position of each of its
    sentences: [positions] holds, for each sentence of the summary, the
    first position of that string in the input, and does not decrease.
    When the sentences of the summary are pairwise distinct, in
    particular when no sentence that passes the length filter occurs at
    two input positions, the summary is a subsequence of the input list:
    strictly increasing input positions hold its elements in order. *)
Theorem summarize_sentences_subsequence
    (set_iter : gset string → list string)
    (sentences : list string) (max_sentences min_chars : Z)
    (out : list string) :
  (∀ X, set_iter X ≡ₚ elements X) →
  summarize_sentences_with set_iter sentences max_sentences min_chars
  = Ok out →
  (∃ positions : list nat,
     Forall2 (λ s k, sentences !! k = Some s
                     ∧ ∀ j, (j < k)%nat → sentences !! j ≠ Some s)
       out positions ∧
     StronglySorted le positions) ∧
  (NoDup out → subsequence out sentences) ∧
  (NoDup (filter_sentences sentences min_chars) →
   subsequence out sentences).
Proof.
  intros Hiter Hout.
  apply summarize_sentences_Ok in Hout as ->; [|done].
  set (top := top_sentences set_iter sentences max_sentences min_chars).
  assert (Htop : top ⊆ sentences) by apply top_sentences_subseteq.
  assert (Hdistinct : NoDup top →
            subsequence (sorted (index_key sentences) top) sentences).
  { intros Hnd. by apply sublist_subsequence, sorted_index_sublist. }
  split; [|split].
  - exists (index_key sentences <$> sorted (index_key sentences) top).
    split.
    + apply Forall2_fmap_r, Forall_Forall2_diag, Forall_forall.
      intros s Hs. rewrite sorted_perm in Hs. simpl.
      unfold index_key.
      destruct (index_is_Some sentences s (Htop s Hs)) as [k Hk].
      rewrite Hk. simpl. split; [by apply index_lookup|].
      intros j Hj. by apply (index_first sentences s k).
    + eapply StronglySorted_fmap; [|apply sorted_ascending]. done.
  - intros Hnd. apply Hdistinct. by rewrite sorted_perm in Hnd.
  - intros Hnd. by apply Hdistinct, nlargest_NoDup.
Qed.

(** C1 fails on a repeated sentence: the summary of this input puts the
    two equal sentences first, which is not their order in the input. *)
Lemma summarize_sentences_repeated_not_subsequence :
  let sentences :=
    ["Cats are great pets."; "Rocks do nothing."; "Cats are great pets."] in
  let out :=
    ["Cats are great pets."; "Cats are great pets."; "Rocks do nothing."] in
  1 ≤ 3 ∧ 0 ≤ 5 ∧
  summarize_sentences sentences 3 5 = Ok out ∧
  ¬ subsequence out sentences.
Proof.
  intros sentences out. split; [lia|]. split; [lia|].
  split; [by vm_compute|].
  intros H%subsequence_sublist. subst sentences out.
  repeat match goal with
         | H : _ `sublist_of` _ |- _ => inversion H; clear H; subst
         end.
Qed.

Lemma summarize_sentences_subsequence_witness :
  subsequence
    ["Cats are great pets."; "Dogs are great pets too."]
    ["Cats are great pets."; "Dogs are great pets too.";
     "Rocks do nothing."].
Proof.
  destruct (summarize_sentences_subsequence elements
              ["Cats are great pets."; "Dogs are great pets too.";
               "Rocks do nothing."] 2 5
              ["Cats are great pets."; "Dogs are great pets too."])
    as (_ & Hsub & _).
  - intros X. reflexivity.
  - vm_compute. reflexivity.
  - apply Hsub. apply (bool_decide_unpack _). vm_compute. exact I.
Defined.

(** C2.  The word-frequency table holds, for each word, the number of
    filtered sentences whose significant words contain it (a sentence
    counts once however often it repeats the word), and the score
    recorded for a filtered sentence is the sum of the table values over
    the occurrences of its significant words, one term per occurrence. *)
Theorem word_freq_counts_sentences_scores_count_occurrences
    (set_iter : gset string → list string)
    (sentences : list string) (min_chars : Z) :
  (∀ X, set_iter X ≡ₚ elements X) →
  let filtered := filter_sentences sentences min_chars in
  let word_freq := build_word_freq set_iter filtered in
  let sentence_scores := build_sentence_scores word_freq filtered in
  (∀ word,
     counter_get word_freq word
     = length (filter (λ s, word ∈ tokenize_sentence s) filtered)) ∧
  (∀ word,
     word_freq !! word = None
     ↔ Forall (λ s, word ∉ tokenize_sentence s) filtered) ∧
  (∀ s, s ∈ filtered →
     sentence_scores !! s
     = Some (foldr plus 0%nat
               (counter_get word_freq <$> tokenize_sentence s))).
Proof.
  intros Hiter filtered word_freq sentence_scores. repeat split.
  - intros word. by apply counter_get_build_word_freq.
  - intros H. apply Forall_forall. intros s Hs Hin.
    apply positive_counts_lookup in H; [|apply positive_counts_build].
    unfold word_freq in H.
    rewrite counter_get_build_word_freq in H by done.
    apply length_zero_iff_nil in H.
    assert (s ∈ filter (λ s, word ∈ tokenize_sentence s) filtered) as Hf
      by (by apply list_elem_of_filter).
    rewrite H in Hf. by apply elem_of_nil in Hf.
  - intros H.
    apply positive_counts_lookup; [apply positive_counts_build|].
    unfold word_freq.
    rewrite counter_get_build_word_freq by done.
    apply length_zero_iff_nil.
    induction H as [|s r Hs _ IH]; [done|].
    by rewrite filter_cons, decide_False.
  - intros s Hs. by apply lookup_build_sentence_scores.
Qed.

Lemma word_freq_counts_sentences_scores_count_occurrences_witness :
  let filtered :=
    filter_sentences ["Dogs chase dogs and more dogs."; "Dogs bark."] 0 in
  let word_freq := build_word_freq elements filtered in
  counter_get word_freq "dogs" = 2%nat ∧
  build_sentence_scores word_freq filtered
    !! "Dogs chase dogs and more dogs."
  = Some 7%nat.
Proof.
  intros filtered word_freq.
  destruct (word_freq_counts_sentences_scores_count_occurrences elements
              ["Dogs chase dogs and more dogs."; "Dogs bark."] 0
              (λ X, reflexivity _)) as (Hcount & _ & Hscore).
  split.
  - etrans; [apply (Hcount "dogs")|]. vm_compute. reflexivity.
  - etrans; [apply (Hscore "Dogs chase dogs and more dogs.")|].
    + apply (bool_decide_unpack _). vm_compute. exact I.
    + vm_compute. reflexivity.
Defined.

(** C7, as the code has it.  For [max_sentences] of 0 or more a summary
    has at most [max_sentences] sentences; for a negative
    [max_sentences] the summary is empty; and when [max_sentences] is at
    least the number of filtered sentences the summary has exactly the
    filtered sentences, each as often as it was filtered. *)
Theorem summarize_sentences_length_and_all
    (set_iter : gset string → list string)
    (sentences : list string) (max_sentences min_chars : Z)
    (out : list string) :
  (∀ X, set_iter X ≡ₚ elements X) →
  summarize_sentences_with set_iter sentences max_sentences min_chars
  = Ok out →
  (0 ≤ max_sentences → Z.of_nat (length out) ≤ max_sentences) ∧
  (max_sentences < 0 → out = []) ∧
  (Z.of_nat (length (filter_sentences sentences min_chars)) ≤ max_sentences
   → out ≡ₚ filter_sentences sentences min_chars).
Proof.
  intros Hiter Hout.
  apply summarize_sentences_Ok in Hout as ->; [|done].
  assert (Hlen : length (sorted (index_key sentences)
                   (top_sentences set_iter sentences max_sentences
                      min_chars))
                 = (Z.to_nat max_sentences
                    `min` length (filter_sentences sentences min_chars))%nat).
  { rewrite sorted_perm. apply nlargest_length. }
  split; [|split].
  - intros Hmax. rewrite Hlen. lia.
  - intros Hneg. apply length_zero_iff_nil. rewrite Hlen. lia.
  - intros Hall. rewrite sorted_perm. by apply nlargest_all.
Qed.

(** C7 fails for a negative [max_sentences], which the command line
    passes on as it is: the call succeeds with the empty summary, whose
    length 0 is not at most -1. *)
Lemma summarize_sentences_negative_max_sentences :
  summarize_sentences ["Cats are great pets."] (-1) 5 = Ok [] ∧
  ¬ (Z.of_nat (length (@nil string)) ≤ -1).
Proof. split; [vm_compute; reflexivity|simpl; lia]. Qed.

Lemma summarize_sentences_length_and_all_witness :
  Z.of_nat (length ["The and of."; "Is it so?"; "Cats."]) ≤ 3 ∧
  ["The and of."; "Is it so?"; "Cats."]
  ≡ₚ filter_sentences ["The and of."; "no"; "Is it so?"; "Cats."] 5.
Proof.
  destruct (summarize_sentences_length_and_all elements
              ["The and of."; "no"; "Is it so?"; "Cats."] 3 5
              ["The and of."; "Is it so?"; "Cats."])
    as (Hlen & _ & Hall).
  - intros X. reflexivity.
  - vm_compute. reflexivity.
  - split; [apply Hlen; lia|]. apply Hall. vm_compute. discriminate.
Defined.

(** C9.  A filtered sentence without significant words is kept in the
    race: its recorded score is 0, and when some filtered sentence has a
    significant word and [max_sentences] is at least the number of
    filtered sentences, the call succeeds and the summary contains it. *)
Theorem summarize_sentences_keeps_stopword_sentence
    (set_iter : gset string → list string)
    (sentences : list string) (max_sentences min_chars : Z) (s : string) :
  (∀ X, set_iter X ≡ₚ elements X) →
  let filtered := filter_sentences sentences min_chars in
  let word_freq := build_word_freq set_iter filtered in
  s ∈ filtered →
  tokenize_sentence s = [] →
  Exists (λ s', tokenize_sentence s' ≠ []) filtered →
  Z.of_nat (length filtered) ≤ max_sentences →
  build_sentence_scores word_freq filtered !! s = Some 0%nat ∧
  ∃ out,
    summarize_sentences_with set_iter sentences max_sentences min_chars
    = Ok out ∧ s ∈ out.
Proof.
  intros Hiter filtered word_freq Hs Htok Hsig Hmax. split.
  - rewrite lookup_build_sentence_scores by done.
    unfold sentence_score. by rewrite Htok.
  - rewrite summarize_sentences_unfold by done. fold filtered.
    rewrite decide_False
      by (intros E; rewrite E in Hs; by apply elem_of_nil in Hs).
    rewrite decide_False.
    + eexists. split; [done|].
      rewrite sorted_perm. unfold top_sentences. fold filtered.
      by rewrite nlargest_all.
    + intros Hall. apply Exists_exists in Hsig as (s' & Hs' & Hne).
      rewrite Forall_forall in Hall. by apply Hne, Hall.
Qed.

Lemma summarize_sentences_keeps_stopword_sentence_witness :
  build_sentence_scores
    (build_word_freq elements
       (filter_sentences ["The and of."; "Is it so?"; "Cats."] 5))
    (filter_sentences ["The and of."; "Is it so?"; "Cats."] 5)
    !! "Is it so?" = Some 0%nat ∧
  ∃ out,
    summarize_sentences_with elements
      ["The and of."; "Is it so?"; "Cats."] 3 5 = Ok out ∧
    "Is it so?" ∈ out.
Proof.
  apply (summarize_sentences_keeps_stopword_sentence elements
           ["The and of."; "Is it so?"; "Cats."] 3 5 "Is it so?").
  - intros X. reflexivity.
  - apply (bool_decide_unpack _). vm_compute. exact I.
  - vm_compute. reflexivity.
  - apply (bool_decide_unpack _). vm_compute. exact I.
  - vm_compute. discriminate.
Defined.

(** C3.  The result does not depend on the order in which the word sets
    are iterated, so equal inputs give equal outputs; and the selection
    is stable: the summary is made of the sentences at a set [picked] of
    positions of the filtered list such that, of two filtered positions
    with equal scores, the later one is picked only if the earlier one
    is, and no position left out has a larger score than a picked one. *)
Theorem summarize_sentences_deterministic_stable
    (set_iter : gset string → list string)
    (sentences : list string) (max_sentences min_chars : Z)
    (out : list string) :
  (∀ X, set_iter X ≡ₚ elements X) →
  summarize_sentences_with set_iter sentences max_sentences min_chars
  = Ok out →
  let filtered := filter_sentences sentences min_chars in
  let score := sentence_score (build_word_freq set_iter filtered) in
  (∀ set_iter' : gset string → list string,
     (∀ X, set_iter' X ≡ₚ elements X) →
     summarize_sentences_with set_iter' sentences max_sentences min_chars
     = Ok out) ∧
  ∃ picked : list (nat * string),
    out = sorted (index_key sentences) picked.*2 ∧
    NoDup picked ∧
    length picked = (Z.to_nat max_sentences `min` length filtered)%nat ∧
    (∀ i s, (i, s) ∈ picked → filtered !! i = Some s) ∧
    (∀ i j si sj,
       (i < j)%nat → filtered !! i = Some si → (j, sj) ∈ picked →
       score si = score sj → (i, si) ∈ picked) ∧
    (∀ i j si sj,
       (i, si) ∈ picked → filtered !! j = Some sj → (j, sj) ∉ picked →
       (score sj ≤ score si)%nat).
Proof.
  intros Hiter Hout filtered score. split.
  - intros set_iter' Hiter'.
    rewrite summarize_sentences_order by done.
    by rewrite <- (summarize_sentences_order set_iter).
  - apply summarize_sentences_Ok in Hout; [|done].
    destruct (nlargest_stable score max_sentences filtered)
      as (picked & Hsnd & Hnd & Hin & Hstable & Hrank).
    exists picked. repeat split; try done.
    + by rewrite Hsnd.
    + rewrite <- (length_fmap snd), Hsnd. apply nlargest_length.
Qed.

Lemma summarize_sentences_deterministic_stable_witness :
  let sentences := ["Red cats."; "Red dogs."; "Red bats."] in
  let filtered := filter_sentences sentences 5 in
  let score := sentence_score (build_word_freq elements filtered) in
  ∃ picked : list (nat * string),
    ["Red cats."; "Red dogs."] = sorted (index_key sentences) picked.*2 ∧
    (∀ i j si sj,
       (i < j)%nat → filtered !! i = Some si → (j, sj) ∈ picked →
       score si = score sj → (i, si) ∈ picked).
Proof.
  intros sentences filtered score.
  destruct (summarize_sentences_deterministic_stable elements
              ["Red cats."; "Red dogs."; "Red bats."] 2 5
              ["Red cats."; "Red dogs."])
    as (_ & picked & Hout & _ & _ & _ & Hstable & _).
  - intros X. reflexivity.
  - vm_compute. reflexivity.
  - exists picked. split; [exact Hout|exact Hstable].
Defined.

(** C4.  [summarize_sentences] raises [ScraperError] when every input
    sentence is shorter than [min_chars], raises it when some sentence
    is long enough but no such sentence has a significant word, and in
    every other case returns the summary; a failure carries no list. *)
Theorem summarize_sentences_fails_exactly
    (set_iter : gset string → list string)
    (sentences : list string) (max_sentences min_chars : Z) :
  (∀ X, set_iter X ≡ₚ elements X) →
  let filtered := filter_sentences sentences min_chars in
  let result :=
    summarize_sentences_with set_iter sentences max_sentences min_chars in
  let too_short := Forall (λ s, Str.len s < min_chars) sentences in
  let no_words := Forall (λ s, tokenize_sentence s = []) filtered in
  (too_short ↔ filtered = []) ∧
  (no_words ↔ build_word_freq set_iter filtered = ∅) ∧
  (too_short →
   result = Raise (ScraperError
     "Not enough substantial sentences were found to build a summary.")) ∧
  (¬ too_short → no_words →
   result = Raise (ScraperError
     "Failed to compute word frequencies for summarization.")) ∧
  (¬ too_short → ¬ no_words →
   result = Ok (sorted (index_key sentences)
                  (top_sentences set_iter sentences max_sentences
                     min_chars))) ∧
  ((∃ e, result = Raise e) ↔ too_short ∨ no_words).
Proof.
  intros Hiter filtered result too_short no_words.
  assert (Hshort : too_short ↔ filtered = [])
    by (symmetry; apply filter_sentences_nil).
  assert (Hres := summarize_sentences_unfold set_iter Hiter
                    sentences max_sentences min_chars).
  cbv zeta in Hres. fold filtered result in Hres.
  split; [done|]. split; [by rewrite build_word_freq_empty|].
  repeat split.
  - intros H. rewrite Hres, decide_True; [done|by apply Hshort].
  - intros H1 H2. rewrite Hres, decide_False, decide_True; [done|done|].
    by rewrite <- Hshort.
  - intros H1 H2. rewrite Hres, !decide_False; [done|done|].
    by rewrite <- Hshort.
  - intros [e He]. rewrite Hres in He.
    destruct (decide (filtered = [])) as [E|E]; [left; by apply Hshort|].
    destruct (decide (Forall (λ s, tokenize_sentence s = []) filtered));
      [by right|done].
  - intros [H|H]; rewrite Hres.
    + rewrite decide_True by (by apply Hshort). by eexists.
    + destruct (decide (filtered = [])); [by eexists|].
      rewrite decide_True by done. by eexists.
Qed.

Lemma summarize_sentences_fails_exactly_witness :
  summarize_sentences_with elements ["The and of."; "Is it so?"] 3 5
  = Raise (ScraperError
      "Failed to compute word frequencies for summarization.").
Proof.
  destruct (summarize_sentences_fails_exactly elements
              ["The and of."; "Is it so?"] 3 5 (λ X, reflexivity _))
    as (_ & _ & _ & Hwords & _).
  apply Hwords.
  - intros H. apply Forall_cons in H as [H _]. vm_compute in H. done.
  - apply (bool_decide_unpack _). vm_compute. exact I.
Defined.

(** ** The content extractor: results *)

Section extract_facts.
Implicit Types (soup e : PageElement) (l : list string).

Lemma find_all_nil name soup :
  Soup.find_all name soup = []
  ↔ ∀ contents, Tag name contents ∉ Soup.descendants soup.
Proof.
  unfold Soup.find_all. split.
  - intros H contents Hin.
    assert (Tag name contents
            ∈ filter (λ d, Soup.is_tag name d = true)
                (Soup.descendants soup)) as Hf.
    { apply list_elem_of_filter. split; [|done].
      simpl. by apply bool_decide_eq_true. }
    rewrite H in Hf. by apply elem_of_nil in Hf.
  - intros H.
    destruct (filter _ (Soup.descendants soup)) as [|e r] eqn:E; [done|].
    assert (e ∈ filter (λ d, Soup.is_tag name d = true)
                  (Soup.descendants soup)) as Hf
      by (rewrite E; left).
    apply list_elem_of_filter in Hf as [Htag Hin].
    destruct e as [t|t|n contents]; try done.
    simpl in Htag. apply bool_decide_eq_true in Htag as ->.
    by destruct (H contents).
Qed.


Lemma raw_text_paragraphs soup :
  Soup.find_all "p" soup ≠ [] →
  raw_text soup
  = Str.join " " (Soup.get_text " " true <$> Soup.find_all "p" soup).
Proof. unfold raw_text. by destruct (Soup.find_all "p" soup). Qed.

Lemma raw_text_fallback soup :
  Soup.find_all "p" soup = [] →
  raw_text soup = Soup.get_text " " false soup.
Proof. unfold raw_text. by intros ->. Qed.

Lemma extract_from_soup_Raise parsed :
  let soup := Soup.decompose_all NON_CONTENT parsed in
  clean_text (raw_text soup) = EmptyString →
  extract_from_soup parsed
  = Raise (ScraperError
      "Unable to extract textual content from the page.").
Proof. intros soup H. unfold extract_from_soup. fold soup. by rewrite H. Qed.

Lemma extract_from_soup_Ok parsed :
  let soup := Soup.decompose_all NON_CONTENT parsed in
  clean_text (raw_text soup) ≠ EmptyString →
  extract_from_soup parsed
  = Ok {| title := page_title soup;
          sentences := split_sentences (clean_text (raw_text soup)) |}.
Proof.
  intros soup H. unfold extract_from_soup. fold soup.
  by destruct (clean_text (raw_text soup)).
Qed.

(** The title when the title element has text that is not white space
    only, and when it has text of white space only. *)
Lemma page_title_text soup title_tag :
  Soup.find "title" soup = Some title_tag →
  Str.all_space (Soup.text title_tag) = false →
  page_title soup = Str.strip (Soup.text title_tag) ∧
  page_title soup ≠ EmptyString.
Proof.
  intros Hfind Hsp. unfold page_title. rewrite Hfind.
  destruct (Soup.text title_tag) as [|c r] eqn:E; [done|].
  cbn [Str.is_empty]. split; [done|].
  intros H%strip_empty. congruence.
Qed.

Lemma page_title_blank soup title_tag :
  Soup.find "title" soup = Some title_tag →
  Soup.text title_tag ≠ EmptyString →
  Str.all_space (Soup.text title_tag) = true →
  page_title soup = EmptyString.
Proof.
  intros Hfind Hne Hsp. unfold page_title. rewrite Hfind.
  destruct (Soup.text title_tag) as [|c r] eqn:E; [done|].
  cbn [Str.is_empty]. by apply strip_empty.
Qed.
End extract_facts.

(** C5.  On normalized text (single-spaced, trimmed) [split_sentences]
    returns no empty string, and its sentences joined by single spaces
    are the text itself; on the empty text it returns the empty list. *)
Theorem split_sentences_segmentation (text : string) :
  normalized text = true →
  Forall (λ s, s ≠ EmptyString) (split_sentences text) ∧
  Str.join " " (split_sentences text) = text ∧
  clean_text (Str.join " " (split_sentences text)) = clean_text text ∧
  (text = EmptyString → split_sentences text = []).
Proof.
  intros Hn.
  assert (Hjoin : Str.join " " (split_sentences text) = text).
  { destruct (decide (text = EmptyString)) as [->|Hne]; [done|].
    by apply split_sentences_normalized. }
  split; [apply split_sentences_nonempty|].
  split; [done|]. split; [by rewrite Hjoin|]. by intros ->.
Qed.

Lemma split_sentences_segmentation_witness :
  Forall (λ s, s ≠ EmptyString)
    (split_sentences "Hello there. How are you? Fine!") ∧
  Str.join " " (split_sentences "Hello there. How are you? Fine!")
  = "Hello there. How are you? Fine!".
Proof.
  destruct (split_sentences_segmentation "Hello there. How are you? Fine!")
    as (Hne & Hjoin & _); [vm_compute; reflexivity|].
  split; [exact Hne|exact Hjoin].
Defined.

(** C6 at the failing input: the title element holds one no-break space
    (white space for [str.strip]); its text is not empty, so line 190
    strips it and the title is the empty string, not "Untitled page". *)
Theorem extract_title_of_blank_title_element :
  let parsed :=
    Tag "[document]"
      [Tag "html"
         [Tag "head" [Tag "title" [NavigableString (String "160" "")]];
          Tag "body" [Tag "p" [NavigableString "Hello world."]]]] in
  Str.strip (String "160" "") = "" ∧
  extract_from_soup parsed
  = Ok {| title := ""; sentences := ["Hello world."] |}.
Proof. split; vm_compute; reflexivity. Qed.

(** C8.  With [soup] the document after the removal of the non-content
    tags: the body text is the space-joined text of the paragraph
    elements when there are any and the text of the whole document
    exactly when there is none; the call raises [ScraperError] exactly
    when the collapsed and trimmed body text is empty, which is when the
    body text is white space only; otherwise it returns the title and
    the segmentation of the cleaned text. *)
Theorem extract_sentences_body_text
    (BeautifulSoup : string → PageElement) (html : string) :
  let soup := Soup.decompose_all NON_CONTENT (BeautifulSoup html) in
  let paragraphs := Soup.find_all "p" soup in
  let cleaned := clean_text (raw_text soup) in
  (paragraphs = [] ↔ ∀ contents, Tag "p" contents ∉ Soup.descendants soup) ∧
  (paragraphs = [] → raw_text soup = Soup.get_text " " false soup) ∧
  (paragraphs ≠ [] →
   raw_text soup = Str.join " " (Soup.get_text " " true <$> paragraphs)) ∧
  (cleaned = EmptyString ↔ Str.all_space (raw_text soup) = true) ∧
  (extract_sentences BeautifulSoup html
   = Raise (ScraperError
       "Unable to extract textual content from the page.")
   ↔ cleaned = EmptyString) ∧
  ((∃ e, extract_sentences BeautifulSoup html = Raise e)
   ↔ cleaned = EmptyString) ∧
  (cleaned ≠ EmptyString →
   extract_sentences BeautifulSoup html
   = Ok {| title := page_title soup;
           sentences := split_sentences cleaned |}).
Proof.
  intros soup paragraphs cleaned. unfold extract_sentences.
  split; [apply find_all_nil|].
  split; [apply raw_text_fallback|].
  split; [apply raw_text_paragraphs|].
  split; [apply clean_text_empty|].
  assert (Hcases :
    cleaned = EmptyString ∨ cleaned ≠ EmptyString)
    by (destruct cleaned; [by left|by right]).
  repeat split.
  - intros H. destruct Hcases as [|Hne]; [done|].
    by rewrite (extract_from_soup_Ok _ Hne) in H.
  - apply extract_from_soup_Raise.
  - intros [e H]. destruct Hcases as [|Hne]; [done|].
    by rewrite (extract_from_soup_Ok _ Hne) in H.
  - intros H. eexists. by apply extract_from_soup_Raise.
  - apply extract_from_soup_Ok.
Qed.




Lemma extract_sentences_body_text_witness :
  let parsed :=
    Tag "[document]"
      [Tag "html"
         [Tag "head" [];
          Tag "body"
            [Tag "script" [NavigableString "var x = 1;"];
             Tag "div" [NavigableString " Hello   world. "; Tag "b" [];
                        NavigableString "Bye!"]]]] in
  let html :=
    "<script>var x = 1;</script><div> Hello   world. <b></b>Bye!</div>" in
  extract_sentences (λ _, parsed) html
  = Ok {| title := "Untitled page"; sentences := ["Hello world."; "Bye!"] |}.
Proof.
  intros parsed html.
  destruct (extract_sentences_body_text (λ _, parsed) html)
    as (_ & _ & _ & _ & _ & _ & Hok).
  etrans; [apply Hok|].
  - vm_compute. discriminate.
  - vm_compute. reflexivity.
Defined.

(** * Further properties *)

(** ** Characters *)

Lemma isalpha_lower c :
  Chars.isalpha (Chars.lower c) = islower_ascii (Chars.lower c).
Proof. destruct c as [[] [] [] [] [] [] [] []]; reflexivity. Qed.

Lemma lower_lower c : Chars.lower (Chars.lower c) = Chars.lower c.
Proof. destruct c as [[] [] [] [] [] [] [] []]; reflexivity. Qed.

Lemma is_ending_nonspace c :
  Chars.is_ending c = true → Chars.isspace c = false.
Proof. destruct c as [[] [] [] [] [] [] [] []]; done. Qed.

(** ** Runs of a character class *)

Section runs_facts.
Implicit Types (cls : ascii → bool) (s h : string) (t : list string).

Lemma runs_all_chars cls s h t :
  Re.runs cls s = (h, t) →
  all_chars cls h = true ∧
  Forall (λ x, x ≠ EmptyString ∧ all_chars cls x = true) t.
Proof.
  revert h t. induction s as [|c r IH]; intros h t; simpl.
  - by intros [= <- <-].
  - destruct (Re.runs cls r) as [h' t'].
    destruct (IH h' t' eq_refl) as [Hh Ht].
    destruct (cls c) eqn:Ec.
    + intros [= <- <-]. simpl. by rewrite Ec, Hh.
    + intros [= <- <-]. split; [done|].
      destruct h' as [|d h']; [done|]. by constructor.
Qed.

Lemma findall_all_chars cls s :
  Forall (λ x, x ≠ EmptyString ∧ all_chars cls x = true) (Re.findall cls s).
Proof.
  unfold Re.findall. destruct (Re.runs cls s) as [h t] eqn:E.
  destruct (runs_all_chars cls s h t E) as [Hh Ht].
  destruct h as [|d h]; [done|]. by constructor.
Qed.

Lemma runs_lower s :
  Re.runs Chars.isalpha (Str.lower s) = Re.runs islower_ascii (Str.lower s).
Proof.
  induction s as [|c r IH]; simpl; [done|].
  by rewrite IH, isalpha_lower.
Qed.

Lemma str_lower_lower s : Str.lower (Str.lower s) = Str.lower s.
Proof.
  induction s as [|c r IH]; simpl; [done|]. by rewrite IH, lower_lower.
Qed.
End runs_facts.

(** Every token is a non-empty word of the letters a-z and is not a stop
    word. *)
Theorem tokenize_sentence_tokens (sentence : string) :
  Forall (λ word, word ≠ EmptyString
                  ∧ all_chars islower_ascii word = true
                  ∧ word ∉ STOP_WORDS)
    (tokenize_sentence sentence).
Proof.
  unfold tokenize_sentence. apply Forall_forall. intros w Hw.
  apply list_elem_of_filter in Hw as [Hstop Hw].
  unfold Re.findall in Hw. rewrite runs_lower in Hw.
  pose proof (findall_all_chars islower_ascii (Str.lower sentence)) as Hall.
  unfold Re.findall in Hall. rewrite Forall_forall in Hall.
  destruct (Hall w Hw) as [??]. done.
Qed.

(** Tokenization does not see letter case: a sentence and its lowercased
    form have the same tokens. *)
Theorem tokenize_sentence_case (sentence : string) :
  tokenize_sentence (Str.lower sentence) = tokenize_sentence sentence.
Proof. unfold tokenize_sentence. by rewrite str_lower_lower. Qed.

(** ** Stripping *)

Section strip_facts.
Implicit Types (c d : ascii) (s r : string).

Lemma rstrip_rstrip s : Str.rstrip (Str.rstrip s) = Str.rstrip s.
Proof.
  induction s as [|c r IH]; [done|]. cbn [Str.rstrip].
  destruct (Str.is_empty (Str.rstrip r) && Chars.isspace c) eqn:E; [done|].
  cbn [Str.rstrip]. by rewrite IH, E.
Qed.

Lemma rstrip_lstrip s :
  Str.rstrip s = s → Str.rstrip (Str.lstrip s) = Str.lstrip s.
Proof.
  induction s as [|c r IH]; [done|]. intros H.
  cbn [Str.lstrip]. destruct (Chars.isspace c) eqn:Ec; [|done].
  apply IH. cbn [Str.rstrip] in H.
  destruct (Str.is_empty (Str.rstrip r) && Chars.isspace c); [done|].
  by injection H.
Qed.

Lemma lstrip_starts s :
  Str.lstrip s = EmptyString ∨ starts_nonspace (Str.lstrip s).
Proof.
  induction s as [|c r IH]; [by left|]. cbn [Str.lstrip].
  destruct (Chars.isspace c) eqn:Ec; [done|]. by right.
Qed.

(** A stripped string is empty or has no white space at its ends. *)
Lemma strip_whole s : Str.strip s = EmptyString ∨ whole_piece (Str.strip s).
Proof.
  unfold Str.strip. destruct (lstrip_starts (Str.rstrip s)) as [|H];
    [by left|]. right. split; [done|].
  apply rstrip_lstrip, rstrip_rstrip.
Qed.

Lemma strip_strip s : Str.strip (Str.strip s) = Str.strip s.
Proof.
  destruct (strip_whole s) as [->|H]; [done|]. by apply whole_piece_strip.
Qed.

Lemma last_char_cons c s :
  s ≠ EmptyString → last_char (String c s) = last_char s.
Proof. by destruct s. Qed.

Lemma last_char_rstrip s c :
  last_char s = Some c → Chars.isspace c = false →
  last_char (Str.rstrip s) = Some c.
Proof.
  induction s as [|d r IH]; [done|]. intros Hl Hc.
  cbn [Str.rstrip]. destruct r as [|e r'].
  - simpl in *. injection Hl as ->. by rewrite Hc.
  - rewrite last_char_cons in Hl by done. specialize (IH Hl Hc).
    destruct (Str.rstrip (String e r')) as [|x y] eqn:E; [done|].
    cbn [Str.is_empty andb]. by rewrite last_char_cons.
Qed.

Lemma last_char_lstrip s c :
  last_char s = Some c → Chars.isspace c = false →
  last_char (Str.lstrip s) = Some c.
Proof.
  induction s as [|d r IH]; [done|]. intros Hl Hc.
  cbn [Str.lstrip]. destruct (Chars.isspace d) eqn:Ed; [|done].
  destruct r as [|e r'].
  - simpl in Hl. congruence.
  - rewrite last_char_cons in Hl by done. by apply IH.
Qed.

Lemma last_char_strip s c :
  last_char s = Some c → Chars.isspace c = false →
  last_char (Str.strip s) = Some c.
Proof.
  intros Hl Hc. unfold Str.strip.
  apply last_char_lstrip; [|done]. by apply last_char_rstrip.
Qed.
End strip_facts.

(** Whatever the text, every sentence that [split_sentences] returns is
    non-empty and has no white space at its ends. *)
Theorem split_sentences_trimmed (text : string) :
  Forall (λ s, s ≠ EmptyString ∧ Str.strip s = s ∧ starts_nonspace s)
    (split_sentences text).
Proof.
  unfold split_sentences. apply Forall_forall. intros s Hs.
  apply list_elem_of_In, in_map_iff in Hs as (x & <- & Hx).
  apply list_elem_of_In, list_elem_of_filter in Hx as [Hx _].
  destruct (strip_whole x) as [|[H1 H2]]; [done|].
  split; [done|]. split; [apply strip_strip|done].
Qed.

(** ** Where [split_sentences] cuts *)

Section split_ends_facts.
Implicit Types (c d : ascii) (s r h : string) (t : list string).

Lemma last_char_None s : last_char s = None → s = EmptyString.
Proof.
  induction s as [|c r IH]; [done|]. destruct r as [|d r']; [done|].
  rewrite last_char_cons by done. intros H. by specialize (IH H).
Qed.

(** Every piece but the last ends with one of [.!?]; for the piece that
    is being read this counts the character before it. *)
Lemma split_endings_from_ends s :
  ∀ in_sep after_end h t,
    Re.split_endings_from in_sep after_end s = (h, t) → t ≠ [] →
    match last_char h with
    | Some c => Chars.is_ending c = true
    | None => in_sep = false ∧ after_end = true
    end ∧
    ∃ init lst, t = (init ++ [lst])%list ∧ Forall ends_sentence init.
Proof.
  induction s as [|c r IH]; intros in_sep after_end h t.
  - simpl. by intros [= <- <-].
  - cbn [Re.split_endings_from]. destruct (Chars.isspace c) eqn:Ec.
    + destruct in_sep.
      * intros E Ht. destruct (IH _ _ _ _ E Ht) as [Hh Hr].
        split; [|done]. destruct (last_char h); [done|]. by destruct Hh.
      * destruct after_end.
        -- destruct (Re.split_endings_from true false r) as [h' t'] eqn:E.
           intros [= <- <-] _. split; [done|].
           destruct t' as [|y t''] eqn:Et.
           ++ exists [], h'. by split.
           ++ destruct (IH _ _ _ _ E) as [Hh (init & lst & Hi & Hends)];
                [done|].
              exists (h' :: init), lst. split; [by rewrite Hi|].
              constructor; [|done].
              destruct (last_char h') as [e|] eqn:El; [by exists e|].
              by destruct Hh.
        -- destruct (Re.split_endings_from false false r) as [h' t'] eqn:E.
           intros [= <- <-] Ht.
           destruct (IH _ _ _ _ E Ht) as [Hh Hr]. split; [|done].
           destruct (last_char h') as [e|] eqn:El; [|by destruct Hh].
           rewrite last_char_cons, El; [done|]. by destruct h'.
    + destruct (Re.split_endings_from false (Chars.is_ending c) r)
        as [h' t'] eqn:E.
      intros [= <- <-] Ht.
      destruct (IH _ _ _ _ E Ht) as [Hh Hr]. split; [|done].
      destruct (last_char h') as [e|] eqn:El.
      * rewrite last_char_cons, El; [done|]. by destruct h'.
      * apply last_char_None in El as ->. simpl. by destruct Hh.
Qed.

Lemma split_endings_ends text :
  ∃ init lst,
    Re.split_endings text = (init ++ [lst])%list ∧
    Forall ends_sentence init.
Proof.
  unfold Re.split_endings.
  destruct (Re.split_endings_from false false text) as [h t] eqn:E.
  destruct t as [|y t'] eqn:Et.
  - exists [], h. by split.
  - destruct (split_endings_from_ends _ _ _ _ _ E)
      as [Hh (init & lst & Hi & Hends)]; [done|].
    exists (h :: init), lst. split; [by rewrite Hi|].
    constructor; [|done].
    destruct (last_char h) as [e|] eqn:El; [by exists e|]. by destruct Hh.
Qed.

Lemma ends_sentence_strip s :
  ends_sentence s → Str.strip s ≠ EmptyString ∧ ends_sentence (Str.strip s).
Proof.
  intros (c & Hl & Hc).
  pose proof (last_char_strip s c Hl (is_ending_nonspace c Hc)) as H.
  split; [|by exists c]. intros E. by rewrite E in H.
Qed.
End split_ends_facts.

(** A sentence boundary is only put after one of [.!?]: every sentence
    that [split_sentences] returns, except possibly the last, ends with
    one of these characters. *)
Theorem split_sentences_ends (text : string) :
  ∃ init rest,
    split_sentences text = (init ++ rest)%list ∧
    (length rest ≤ 1)%nat ∧
    Forall ends_sentence init.
Proof.
  unfold split_sentences.
  destruct (split_endings_ends text) as (init & lst & -> & Hends).
  rewrite filter_app, map_app.
  exists (map Str.strip
            (filter (λ x, Str.strip x ≠ EmptyString) init)),
         (map Str.strip
            (filter (λ x, Str.strip x ≠ EmptyString) [lst])).
  split; [done|]. split.
  - rewrite length_map.
    pose proof (length_filter (λ x, Str.strip x ≠ EmptyString) [lst]).
    simpl in *. lia.
  - apply Forall_forall. intros s Hs.
    apply list_elem_of_In, in_map_iff in Hs as (x & <- & Hx).
    apply list_elem_of_In, list_elem_of_filter in Hx as [_ Hx].
    rewrite Forall_forall in Hends. by apply ends_sentence_strip, Hends.
Qed.

(** ** White-space separated words *)

Section words_facts.
Implicit Types (c d : ascii) (s r h a b : string) (t l : list string).

Lemma runs_space c r :
  Chars.isspace c = true → Re.runs nonspace (String c r) = (EmptyString, words r).
Proof.
  intros Hc. unfold words, Re.findall. cbn [Re.runs].
  destruct (Re.runs nonspace r) as [h t]. unfold nonspace. by rewrite Hc.
Qed.

Lemma runs_nonspace c r :
  Chars.isspace c = false →
  Re.runs nonspace (String c r)
  = (String c (Re.runs nonspace r).1, (Re.runs nonspace r).2).
Proof.
  intros Hc. cbn [Re.runs].
  destruct (Re.runs nonspace r) as [h t]. unfold nonspace. by rewrite Hc.
Qed.

Lemma words_runs s :
  words s = if Str.is_empty (Re.runs nonspace s).1
            then (Re.runs nonspace s).2
            else (Re.runs nonspace s).1 :: (Re.runs nonspace s).2.
Proof. unfold words, Re.findall. by destruct (Re.runs nonspace s). Qed.

Lemma words_space c r : Chars.isspace c = true → words (String c r) = words r.
Proof. intros Hc. by rewrite (words_runs (String c r)), runs_space. Qed.

Lemma words_whole s :
  Forall (λ x, x ≠ EmptyString ∧ starts_nonspace x) (words s).
Proof.
  pose proof (findall_all_chars nonspace s) as H. fold (words s) in H.
  eapply Forall_impl; [exact H|]. intros x [Hne Hall]. split; [done|].
  destruct x as [|c x]; [done|]. simpl in *.
  apply andb_prop in Hall as [Hc _]. by apply negb_true_iff.
Qed.

Lemma join_starts x l :
  starts_nonspace x → starts_nonspace (Str.join " " (x :: l)).
Proof.
  destruct x as [|c x]; [done|]. intros H. by rewrite join_cons_head.
Qed.

(** Collapsing the white space and stripping on the right leaves the
    words joined by single spaces, after one space when the text starts
    with white space that is not dropped. *)
Lemma rstrip_sub_spaces_from (in_run : bool) s :
  Str.rstrip (Re.sub_spaces_from in_run s)
  = if Str.is_empty (Re.runs nonspace s).1 && in_run
    then Str.join " " (Re.runs nonspace s).2
    else Str.join " " ((Re.runs nonspace s).1 :: (Re.runs nonspace s).2).
Proof.
  revert in_run. induction s as [|c r IH]; intros in_run;
    [by destruct in_run|].
  cbn [Re.sub_spaces_from]. destruct (Chars.isspace c) eqn:Ec.
  - rewrite runs_space by done. cbn [fst snd Str.is_empty andb].
    assert (Htrue : Str.rstrip (Re.sub_spaces_from true r)
                    = Str.join " " (words r)).
    { rewrite IH, words_runs, andb_true_r.
      by destruct (Str.is_empty (Re.runs nonspace r).1). }
    destruct in_run; [done|].
    cbn [Str.rstrip]. rewrite Htrue, isspace_space, andb_true_r.
    pose proof (words_whole r) as Hw.
    destruct (words r) as [|x l]; [done|].
    apply Forall_cons in Hw as [[Hx Hst] _].
    pose proof (join_starts x l Hst) as Hj.
    rewrite join_empty_head.
    by destruct (Str.join " " (x :: l)).
  - rewrite runs_nonspace by done. cbn [fst snd Str.is_empty andb].
    cbn [Str.rstrip]. rewrite Ec, andb_false_r, IH, andb_false_r.
    by rewrite join_cons_head.
Qed.

(** The cleaned text is the words of the raw text joined by single
    spaces. *)
Lemma clean_text_words s : clean_text s = Str.join " " (words s).
Proof.
  unfold clean_text, Str.strip, Re.sub_spaces.
  rewrite rstrip_sub_spaces_from, andb_false_r, words_runs.
  pose proof (words_whole s) as Hw. rewrite words_runs in Hw.
  destruct (Re.runs nonspace s) as [h t]. cbn [fst snd] in *.
  destruct h as [|c h]; cbn [Str.is_empty] in *.
  - destruct t as [|x l]; [done|].
    apply Forall_cons in Hw as [[_ Hst] _].
    rewrite join_empty_head. cbn [Str.lstrip]. rewrite isspace_space.
    by apply lstrip_nonspace, join_starts.
  - apply Forall_cons in Hw as [[_ Hst] _].
    by apply lstrip_nonspace, join_starts.
Qed.

Lemma runs_app_space a c b :
  Chars.isspace c = true →
  Re.runs nonspace (a ++ String c b)
  = ((Re.runs nonspace a).1, ((Re.runs nonspace a).2 ++ words b)%list).
Proof.
  intros Hc. induction a as [|d a IH].
  - change (EmptyString ++ String c b) with (String c b).
    by rewrite runs_space.
  - change (String d a ++ String c b) with (String d (a ++ String c b)).
    cbn [Re.runs]. rewrite IH.
    destruct (Re.runs nonspace a) as [h t]. cbn [fst snd].
    destruct (nonspace d); [done|]. by destruct h.
Qed.

Lemma words_app_space a c b :
  Chars.isspace c = true → words (a ++ String c b) = (words a ++ words b)%list.
Proof.
  intros Hc. rewrite (words_runs (a ++ _)), (words_runs a).
  rewrite runs_app_space by done.
  cbn [fst snd]. by destruct (Str.is_empty (Re.runs nonspace a).1).
Qed.

Lemma words_join l : words (Str.join " " l) = flat_map words l.
Proof.
  induction l as [|x l IH]; [done|].
  destruct l as [|y l].
  - simpl. by rewrite app_nil_r.
  - change (Str.join " " (x :: y :: l))
      with (x ++ String " " (Str.join " " (y :: l))).
    rewrite words_app_space by done. by rewrite IH.
Qed.

Lemma runs_rstrip s : Re.runs nonspace (Str.rstrip s) = Re.runs nonspace s.
Proof.
  induction s as [|c r IH]; [done|]. cbn [Str.rstrip].
  destruct (Str.is_empty (Str.rstrip r) && Chars.isspace c) eqn:E.
  - apply andb_prop in E as [E1 Ec]. apply is_empty_true in E1.
    rewrite E1 in IH. cbn [Re.runs]. rewrite <- IH.
    unfold nonspace. by rewrite Ec.
  - cbn [Re.runs]. by rewrite IH.
Qed.

Lemma words_lstrip s : words (Str.lstrip s) = words s.
Proof.
  induction s as [|c r IH]; [done|]. cbn [Str.lstrip].
  destruct (Chars.isspace c) eqn:Ec; [|done]. by rewrite IH, words_space.
Qed.

Lemma words_strip s : words (Str.strip s) = words s.
Proof.
  unfold Str.strip. rewrite words_lstrip, !words_runs. by rewrite runs_rstrip.
Qed.

Lemma words_stripped_pieces l :
  flat_map words
    (map Str.strip (filter (λ x, Str.strip x ≠ EmptyString) l))
  = flat_map words l.
Proof.
  induction l as [|x l IH]; [done|].
  rewrite filter_cons. cbn [flat_map]. case_decide as Hx.
  - cbn [map flat_map]. by rewrite IH, words_strip.
  - rewrite IH. by rewrite <- (words_strip x), Hx.
Qed.

(** The pieces of the split hold the words of the text. *)
Lemma split_endings_from_words s :
  ∀ in_sep after_end h t,
    Re.split_endings_from in_sep after_end s = (h, t) →
    (in_sep = false →
     Re.runs nonspace s
     = ((Re.runs nonspace h).1,
        ((Re.runs nonspace h).2 ++ flat_map words t)%list)) ∧
    words s = (words h ++ flat_map words t)%list.
Proof.
  assert (Hpair : ∀ s h (W : list string),
    Re.runs nonspace s
    = ((Re.runs nonspace h).1, ((Re.runs nonspace h).2 ++ W)%list) →
    words s = (words h ++ W)%list).
  { intros s0 h W H. rewrite !words_runs, H. cbn [fst snd].
    by destruct (Str.is_empty (Re.runs nonspace h).1). }
  induction s as [|c r IH]; intros in_sep after_end h t.
  - simpl. by intros [= <- <-].
  - cbn [Re.split_endings_from]. destruct (Chars.isspace c) eqn:Ec.
    + destruct in_sep.
      * intros E. destruct (IH _ _ _ _ E) as [_ Hw].
        split; [done|]. by rewrite words_space.
      * destruct after_end.
        -- destruct (Re.split_endings_from true false r) as [h' t'] eqn:E.
           intros [= <- <-]. destruct (IH _ _ _ _ E) as [_ Hw].
           assert (Hr : Re.runs nonspace (String c r)
                        = ((Re.runs nonspace EmptyString).1,
                           ((Re.runs nonspace EmptyString).2
                            ++ flat_map words (h' :: t'))%list)).
           { rewrite runs_space by done. cbn [flat_map Re.runs fst snd].
             by rewrite Hw. }
           split; [done|]. by apply Hpair.
        -- destruct (Re.split_endings_from false false r) as [h' t'] eqn:E.
           intros [= <- <-]. destruct (IH _ _ _ _ E) as [_ Hw].
           assert (Hr : Re.runs nonspace (String c r)
                        = ((Re.runs nonspace (String c h')).1,
                           ((Re.runs nonspace (String c h')).2
                            ++ flat_map words t')%list)).
           { rewrite !runs_space by done. cbn [fst snd]. by rewrite Hw. }
           split; [done|]. by apply Hpair.
    + destruct (Re.split_endings_from false (Chars.is_ending c) r)
        as [h' t'] eqn:E.
      intros [= <- <-]. destruct (IH _ _ _ _ E) as [Hp _].
      specialize (Hp eq_refl).
      assert (Hr : Re.runs nonspace (String c r)
                   = ((Re.runs nonspace (String c h')).1,
                      ((Re.runs nonspace (String c h')).2
                       ++ flat_map words t')%list)).
      { rewrite !runs_nonspace by done. by rewrite Hp. }
      split; [done|]. by apply Hpair.
Qed.

Lemma words_split_sentences text :
  flat_map words (split_sentences text) = words text.
Proof.
  unfold split_sentences. rewrite words_stripped_pieces.
  unfold Re.split_endings.
  destruct (Re.split_endings_from false false text) as [h t] eqn:E.
  destruct (split_endings_from_words _ _ _ _ _ E) as [_ Hw].
  by rewrite Hw.
Qed.
End words_facts.

(** Segmentation loses nothing but white space, whatever the text: the
    sentences joined by single spaces clean to the cleaned text, that
    is, they hold the same words in the same order. *)
Theorem split_sentences_keeps_words (text : string) :
  clean_text (Str.join " " (split_sentences text)) = clean_text text ∧
  flat_map words (split_sentences text) = words text.
Proof.
  split; [|apply words_split_sentences].
  by rewrite !clean_text_words, words_join, words_split_sentences.
Qed.

(** ** The summarizer: further results *)

Section summarize_more.
Variable set_iter : gset string → list string.
Hypothesis set_iter_perm : ∀ X, set_iter X ≡ₚ elements X.

Implicit Types (sentences out : list string) (max_sentences min_chars : Z).

Lemma summarize_sentences_Ok_inv sentences max_sentences min_chars out :
  summarize_sentences_with set_iter sentences max_sentences min_chars
  = Ok out →
  filter_sentences sentences min_chars ≠ [] ∧
  out = sorted (index_key sentences)
          (top_sentences set_iter sentences max_sentences min_chars).
Proof.
  rewrite summarize_sentences_unfold by done.
  repeat case_decide; [done|done|]. by intros [= <-].
Qed.

Lemma sum_bounds (f : string → nat) (N : nat) (l : list string) :
  Forall (λ x, 1 ≤ f x ≤ N)%nat l →
  (length l ≤ foldr plus 0 (f <$> l) ≤ length l * N)%nat.
Proof.
  induction 1 as [|x l [H1 H2] _ IH]; csimpl; lia.
Qed.

Lemma counter_get_le_length filtered word :
  (counter_get (build_word_freq set_iter filtered) word ≤ length filtered)%nat.
Proof.
  rewrite counter_get_build_word_freq by done. apply length_filter.
Qed.

Lemma counter_get_token filtered s word :
  s ∈ filtered → word ∈ tokenize_sentence s →
  (1 ≤ counter_get (build_word_freq set_iter filtered) word)%nat.
Proof.
  intros Hs Hw. rewrite counter_get_build_word_freq by done.
  assert (s ∈ filter (λ s', word ∈ tokenize_sentence s') filtered) as Hin
    by (by apply list_elem_of_filter).
  destruct (filter _ filtered); [by apply elem_of_nil in Hin|simpl; lia].
Qed.
End summarize_more.

Lemma filter_sentences_idemp sentences min_chars :
  filter_sentences (filter_sentences sentences min_chars) min_chars
  = filter_sentences sentences min_chars.
Proof.
  unfold filter_sentences.
  induction sentences as [|s r IH]; [done|].
  rewrite filter_cons. case_decide; [|done].
  rewrite filter_cons, decide_True by done. by rewrite IH.
Qed.

(** Filtering keeps the order of the first positions. *)
Lemma index_key_filter (P : string → Prop) `{∀ x, Decision (P x)}
    (l : list string) (x y : string) :
  x ∈ filter P l → y ∈ filter P l →
  (index_key (filter P l) x <=? index_key (filter P l) y)%nat
  = (index_key l x <=? index_key l y)%nat.
Proof.
  induction l as [|a l IH]; intros Hx Hy.
  - by apply elem_of_nil in Hx.
  - rewrite filter_cons in Hx, Hy |- *.
    assert (Htail : ∀ z, z ≠ a → z ∈ filter P (a :: l) →
                         z ∈ filter P l ∧ z ∈ l).
    { intros z Hz Hin. apply list_elem_of_filter in Hin as [HP Hin].
      apply elem_of_cons in Hin as [?|Hin]; [done|].
      split; [|done]. by apply list_elem_of_filter. }
    rewrite filter_cons in Htail.
    destruct (decide (P a)) as [Ha|Ha].
    + destruct (decide (x = a)) as [->|Hxa];
        destruct (decide (y = a)) as [->|Hya].
      * by rewrite !index_key_head.
      * by rewrite !index_key_head.
      * destruct (Htail x Hxa Hx) as [Hx1 Hx2].
        by rewrite !index_key_head, !index_key_tail.
      * destruct (Htail x Hxa Hx) as [Hx1 Hx2].
        destruct (Htail y Hya Hy) as [Hy1 Hy2].
        rewrite !index_key_tail by done. by apply IH.
    + assert (∀ z, z ∈ filter P l → z ≠ a ∧ z ∈ l) as Hne.
      { intros z Hz. apply list_elem_of_filter in Hz as [HP Hz].
        split; [|done]. by intros ->. }
      destruct (Hne x Hx) as [Hxa Hxl]. destruct (Hne y Hy) as [Hya Hyl].
      rewrite (index_key_tail a x l), (index_key_tail a y l) by done.
      by apply IH.
Qed.

(** The summary has exactly as many sentences as asked for, or all the
    filtered ones when there are fewer; it is empty when
    [max_sentences] is zero or negative and never empty otherwise. *)
Theorem summarize_sentences_exact_length
    (set_iter : gset string → list string)
    (sentences : list string) (max_sentences min_chars : Z)
    (out : list string) :
  (∀ X, set_iter X ≡ₚ elements X) →
  summarize_sentences_with set_iter sentences max_sentences min_chars
  = Ok out →
  length out
  = (Z.to_nat max_sentences
     `min` length (filter_sentences sentences min_chars))%nat ∧
  (1 ≤ max_sentences → out ≠ []) ∧
  (max_sentences ≤ 0 → out = []).
Proof.
  intros Hiter Hout.
  apply summarize_sentences_Ok_inv in Hout as [Hne ->]; [|done].
  assert (Hlen : length (sorted (index_key sentences)
                   (top_sentences set_iter sentences max_sentences
                      min_chars))
                 = (Z.to_nat max_sentences
                    `min` length (filter_sentences sentences min_chars))%nat).
  { rewrite sorted_perm. apply nlargest_length. }
  split; [done|].
  destruct (filter_sentences sentences min_chars) as [|s0 r] eqn:E; [done|].
  simpl in Hlen. split.
  - intros Hmax Hnil. rewrite Hnil in Hlen. simpl in Hlen. lia.
  - intros Hmax. apply length_zero_iff_nil. lia.
Qed.

Lemma summarize_sentences_exact_length_witness :
  length ["Red cats."; "Red dogs."] = 2%nat.
Proof.
  destruct (summarize_sentences_exact_length elements
              ["Red cats."; "Red dogs."; "Red bats."; "no"] 2 5
              ["Red cats."; "Red dogs."])
    as (Hlen & _ & _).
  - intros X. reflexivity.
  - vm_compute. reflexivity.
  - etrans; [exact Hlen|]. vm_compute. reflexivity.
Defined.

(** Every sentence of the summary is an input sentence of at least
    [min_chars] characters, no sentence is taken more often than it
    passes the filter, and the summary is in the order of the first
    positions of its sentences in the input. *)
Theorem summarize_sentences_members
    (set_iter : gset string → list string)
    (sentences : list string) (max_sentences min_chars : Z)
    (out : list string) :
  (∀ X, set_iter X ≡ₚ elements X) →
  summarize_sentences_with set_iter sentences max_sentences min_chars
  = Ok out →
  Forall (λ s, s ∈ sentences ∧ min_chars ≤ Str.len s) out ∧
  out ⊆+ filter_sentences sentences min_chars ∧
  StronglySorted
    (λ a b, index_key sentences a ≤ index_key sentences b)%nat out.
Proof.
  intros Hiter Hout.
  apply summarize_sentences_Ok_inv in Hout as [_ ->]; [|done].
  assert (Hsub : sorted (index_key sentences)
                   (top_sentences set_iter sentences max_sentences
                      min_chars)
                 ⊆+ filter_sentences sentences min_chars).
  { rewrite sorted_perm. apply nlargest_sublist_perm. }
  split; [|split; [done|apply sorted_ascending]].
  apply Forall_forall. intros s Hs.
  pose proof (elem_of_submseteq _ _ _ Hs Hsub) as Hf.
  unfold filter_sentences in Hf.
  apply list_elem_of_filter in Hf as [??]. done.
Qed.

Lemma summarize_sentences_members_witness :
  Forall (λ s, s ∈ ["no"; "Red cats."; "Red dogs."] ∧ 5 ≤ Str.len s)
    ["Red cats."; "Red dogs."].
Proof.
  destruct (summarize_sentences_members elements
              ["no"; "Red cats."; "Red dogs."] 2 5
              ["Red cats."; "Red dogs."])
    as (Hall & _ & _).
  - intros X. reflexivity.
  - vm_compute. reflexivity.
  - exact Hall.
Defined.

(** With [max_sentences = 1] the summary is the first of the filtered
    sentences with the highest score. *)
Theorem summarize_sentences_top_one
    (set_iter : gset string → list string)
    (sentences : list string) (min_chars : Z) (out : list string) :
  (∀ X, set_iter X ≡ₚ elements X) →
  summarize_sentences_with set_iter sentences 1 min_chars = Ok out →
  let filtered := filter_sentences sentences min_chars in
  let score := sentence_score (build_word_freq set_iter filtered) in
  ∃ i s,
    out = [s] ∧ filtered !! i = Some s ∧
    ∀ j sj, filtered !! j = Some sj →
      (score sj ≤ score s)%nat ∧ ((j < i)%nat → (score sj < score s)%nat).
Proof.
  intros Hiter Hout filtered score.
  apply summarize_sentences_Ok_inv in Hout as [Hne ->]; [|done].
  unfold top_sentences. fold filtered score.
  destruct (nlargest_stable score 1 filtered)
    as (picked & Hsnd & Hnd & Hin & Hstable & Hrank).
  assert (Hlen : length picked = 1%nat).
  { rewrite <- (length_fmap snd), Hsnd, nlargest_length.
    fold filtered in Hne. destruct filtered; [done|]. simpl. lia. }
  destruct picked as [|[i s] [|??]]; try done.
  rewrite <- Hsnd. exists i, s. split; [done|].
  split; [apply Hin; left|].
  intros j sj Hj.
  assert (Hle : (score sj ≤ score s)%nat).
  { destruct (decide (j = i)) as [->|Hji].
    - assert (filtered !! i = Some s) as Hi by (apply Hin; left).
      rewrite Hi in Hj. injection Hj as ->. lia.
    - apply (Hrank i j s sj); [left|done|].
      intros H. apply list_elem_of_singleton in H. congruence. }
  split; [done|]. intros Hlt.
  destruct (decide (score sj = score s)) as [Heq|]; [|lia].
  assert ((j, sj) ∈ [(i, s)]) as H
    by (apply (Hstable j i sj s); [done|done|left|done]).
  apply list_elem_of_singleton in H. injection H as -> _. lia.
Qed.

Lemma summarize_sentences_top_one_witness :
  ∃ i s,
    ["Red dogs bark."] = [s] ∧
    filter_sentences ["Red cats."; "Red dogs bark."; "Red bats bark."] 5
      !! i = Some s.
Proof.
  destruct (summarize_sentences_top_one elements
              ["Red cats."; "Red dogs bark."; "Red bats bark."] 5
              ["Red dogs bark."])
    as (i & s & Hout & Hi & _).
  - intros X. reflexivity.
  - vm_compute. reflexivity.
  - by exists i, s.
Defined.

(** Sentences shorter than [min_chars] have no influence: removing them
    from the input beforehand gives the same result. *)
Theorem summarize_sentences_ignores_short
    (set_iter : gset string → list string)
    (sentences : list string) (max_sentences min_chars : Z) :
  summarize_sentences_with set_iter
    (filter_sentences sentences min_chars) max_sentences min_chars
  = summarize_sentences_with set_iter sentences max_sentences min_chars.
Proof.
  unfold summarize_sentences_with. rewrite filter_sentences_idemp.
  set (filtered := filter_sentences sentences min_chars).
  destruct (decide (filtered = [])); [done|].
  destruct (decide (build_word_freq set_iter filtered = ∅)); [done|].
  set (top := nlargest max_sentences filtered _).
  assert (Htop : top ⊆ filtered).
  { intros s Hs. eapply elem_of_submseteq; [exact Hs|].
    apply nlargest_sublist_perm. }
  rewrite !sort_by_index_Ok; [|by intros s Hs;
    apply (filter_sentences_subseteq sentences min_chars), Htop|done].
  f_equal. unfold sorted. apply sort_stable_ext. intros x y Hx Hy.
  apply index_key_filter; by apply Htop.
Qed.

(** Counts and scores: no word counts more than the number of filtered
    sentences; the score of a filtered sentence is at least the number
    of its tokens and at most that number times the number of filtered
    sentences, so it is 0 exactly when the sentence has no significant
    word. *)
Theorem word_freq_and_score_bounds
    (set_iter : gset string → list string)
    (sentences : list string) (min_chars : Z) :
  (∀ X, set_iter X ≡ₚ elements X) →
  let filtered := filter_sentences sentences min_chars in
  let word_freq := build_word_freq set_iter filtered in
  (∀ word, (counter_get word_freq word ≤ length filtered)%nat) ∧
  (∀ s, s ∈ filtered →
     (length (tokenize_sentence s) ≤ sentence_score word_freq s
      ≤ length (tokenize_sentence s) * length filtered)%nat ∧
     (sentence_score word_freq s = 0%nat ↔ tokenize_sentence s = [])).
Proof.
  intros Hiter filtered word_freq. split.
  - intros word. by apply counter_get_le_length.
  - intros s Hs.
    assert (Hb : (length (tokenize_sentence s) ≤ sentence_score word_freq s
                  ≤ length (tokenize_sentence s) * length filtered)%nat).
    { unfold sentence_score. apply sum_bounds, Forall_forall.
      intros w Hw. split.
      - by apply (counter_get_token set_iter Hiter filtered s).
      - by apply counter_get_le_length. }
    split; [done|]. split.
    + intros H0. apply length_zero_iff_nil. lia.
    + intros E. unfold sentence_score. by rewrite E.
Qed.

Lemma word_freq_and_score_bounds_witness :
  (length (tokenize_sentence "Red dogs bark.")
   ≤ sentence_score
       (build_word_freq elements
          (filter_sentences ["Red cats."; "Red dogs bark."] 5))
       "Red dogs bark.")%nat.
Proof.
  destruct (word_freq_and_score_bounds elements
              ["Red cats."; "Red dogs bark."] 5 (λ X, reflexivity _))
    as [_ Hs].
  destruct (Hs "Red dogs bark.") as [[H _] _]; [|exact H].
  apply (bool_decide_unpack _). vm_compute. exact I.
Defined.

(** ** The parsed document: removal of tags *)

Section soup_facts.
Implicit Types (e d : PageElement) (names : list string).

(** Induction on documents, with the hypothesis for every child. *)
Lemma PageElement_nested_ind (P : PageElement → Prop) :
  (∀ t, P (NavigableString t)) →
  (∀ t, P (Comment t)) →
  (∀ n contents, Forall P contents → P (Tag n contents)) →
  ∀ e, P e.
Proof.
  intros Hs Hc Ht.
  exact (fix IH (e : PageElement) : P e :=
           match e with
           | NavigableString t => Hs t
           | Comment t => Hc t
           | Tag n contents =>
               Ht n contents
                 ((fix go (l : list PageElement) : Forall P l :=
                     match l with
                     | [] => List.Forall_nil P
                     | c :: r => @List.Forall_cons _ P c r (IH c) (go r)
                     end) contents)
           end).
Qed.

Lemma elem_of_flat_map {A B} (f : A → list B) (l : list A) (y : B) :
  y ∈ flat_map f l ↔ ∃ x, x ∈ l ∧ y ∈ f x.
Proof.
  rewrite list_elem_of_In, in_flat_map.
  split; intros (x & H1 & H2); exists x; by rewrite ?list_elem_of_In in *.
Qed.

Lemma flat_map_id_on {A} (f : A → list A) (l : list A) :
  Forall (λ x, f x = [x]) l → flat_map f l = l.
Proof. induction 1 as [|x l Hx _ IH]; simpl; [done|]. by rewrite Hx, IH. Qed.

(** What [prune] keeps holds no tag with one of the names, at any
    depth. *)
Lemma prune_clean names e :
  Forall (λ k, ¬ tag_in names k ∧
               Forall (λ d, ¬ tag_in names d) (Soup.descendants k))
    (Soup.prune names e).
Proof.
  induction e as [t|t|n contents IH] using PageElement_nested_ind.
  - repeat constructor; by intros [].
  - repeat constructor; by intros [].
  - cbn [Soup.prune]. case_decide as Hn; [constructor|].
    repeat constructor; [done|].
    cbn [Soup.descendants]. apply Forall_forall. intros d Hd.
    apply elem_of_flat_map in Hd as (k & Hk & Hd).
    apply elem_of_flat_map in Hk as (c & Hc & Hk).
    rewrite Forall_forall in IH. specialize (IH c Hc).
    rewrite Forall_forall in IH. destruct (IH k Hk) as [Hk1 Hk2].
    apply elem_of_cons in Hd as [->|Hd]; [done|].
    rewrite Forall_forall in Hk2. by apply Hk2.
Qed.

(** Pruning what was pruned changes nothing. *)
Lemma prune_fixed names e :
  Forall (λ k, Soup.prune names k = [k]) (Soup.prune names e).
Proof.
  induction e as [t|t|n contents IH] using PageElement_nested_ind.
  - by repeat constructor.
  - by repeat constructor.
  - cbn [Soup.prune]. case_decide as Hn; [constructor|].
    repeat constructor. cbn [Soup.prune]. rewrite decide_False by done.
    do 2 f_equal. apply flat_map_id_on, Forall_forall. intros k Hk.
    apply elem_of_flat_map in Hk as (c & Hc & Hk).
    rewrite Forall_forall in IH. specialize (IH c Hc).
    rewrite Forall_forall in IH. by apply IH.
Qed.

Lemma prune_contents_fixed names (contents : list PageElement) :
  flat_map (Soup.prune names) (flat_map (Soup.prune names) contents)
  = flat_map (Soup.prune names) contents.
Proof.
  apply flat_map_id_on, Forall_forall. intros k Hk.
  apply elem_of_flat_map in Hk as (c & Hc & Hk).
  pose proof (prune_fixed names c) as H. rewrite Forall_forall in H.
  by apply H.
Qed.

Lemma decompose_all_idemp names e :
  Soup.decompose_all names (Soup.decompose_all names e)
  = Soup.decompose_all names e.
Proof.
  destruct e as [t|t|n contents]; [done|done|].
  cbn [Soup.decompose_all]. by rewrite prune_contents_fixed.
Qed.
End soup_facts.

(** After [decompose_all] no element below the root is a tag with one of
    the removed names, however deep it was nested. *)
Theorem decompose_all_removes (names : list string) (soup : PageElement) :
  Forall (λ d, ¬ tag_in names d)
    (Soup.descendants (Soup.decompose_all names soup)).
Proof.
  destruct soup as [t|t|n contents]; [constructor|constructor|].
  cbn [Soup.decompose_all Soup.descendants].
  apply Forall_forall. intros d Hd.
  apply elem_of_flat_map in Hd as (k & Hk & Hd).
  apply elem_of_flat_map in Hk as (c & Hc & Hk).
  pose proof (prune_clean names c) as H. rewrite Forall_forall in H.
  destruct (H k Hk) as [Hk1 Hk2].
  apply elem_of_cons in Hd as [->|Hd]; [done|].
  rewrite Forall_forall in Hk2. by apply Hk2.
Qed.

(** Removing the non-content tags is idempotent, and [extract_sentences]
    gives the same result on the document and on the document from
    which these tags were already removed. *)
Theorem extract_from_soup_decomposed (parsed : PageElement) :
  Soup.decompose_all NON_CONTENT (Soup.decompose_all NON_CONTENT parsed)
  = Soup.decompose_all NON_CONTENT parsed ∧
  extract_from_soup (Soup.decompose_all NON_CONTENT parsed)
  = extract_from_soup parsed.
Proof.
  split; [apply decompose_all_idemp|].
  unfold extract_from_soup. by rewrite decompose_all_idemp.
Qed.

(** ** The extracted page *)

Section page_facts.
Implicit Types (parsed : PageElement) (page : PageContent).

Lemma extract_from_soup_Ok_inv parsed page :
  extract_from_soup parsed = Ok page →
  let soup := Soup.decompose_all NON_CONTENT parsed in
  clean_text (raw_text soup) ≠ EmptyString ∧
  page = {| title := page_title soup;
            sentences := split_sentences (clean_text (raw_text soup)) |}.
Proof.
  intros H soup.
  destruct (decide (clean_text (raw_text soup) = EmptyString)) as [E|E].
  - by rewrite (extract_from_soup_Raise parsed E) in H.
  - rewrite (extract_from_soup_Ok parsed E) in H. by injection H as <-.
Qed.

Lemma extract_from_soup_raises parsed e :
  extract_from_soup parsed = Raise e →
  e = ScraperError "Unable to extract textual content from the page.".
Proof.
  unfold extract_from_soup.
  destruct (Str.is_empty _); [by intros [= <-]|done].
Qed.

Lemma split_sentences_pieces text :
  Forall whole_piece (split_sentences text).
Proof.
  unfold split_sentences. apply Forall_forall. intros s Hs.
  apply list_elem_of_In, in_map_iff in Hs as (x & <- & Hx).
  apply list_elem_of_In, list_elem_of_filter in Hx as [Hx _].
  by destruct (strip_whole x).
Qed.

Lemma page_title_trimmed soup : Str.strip (page_title soup) = page_title soup.
Proof.
  unfold page_title. destruct (Soup.find "title" soup) as [t|]; [|done].
  destruct (Str.is_empty (Soup.text t)); [done|]. apply strip_strip.
Qed.
End page_facts.

(** A page that [extract_sentences] returns has at least one sentence,
    every sentence is non-empty without white space at its ends, and
    the page text (the sentences joined by spaces) is the cleaned body
    text, which is not empty. *)
Theorem extract_sentences_page
    (BeautifulSoup : string → PageElement) (html : string)
    (page : PageContent) :
  extract_sentences BeautifulSoup html = Ok page →
  let soup := Soup.decompose_all NON_CONTENT (BeautifulSoup html) in
  sentences page ≠ [] ∧
  Forall (λ s, s ≠ EmptyString ∧ Str.strip s = s) (sentences page) ∧
  PageContent_text page = clean_text (raw_text soup) ∧
  PageContent_text page ≠ EmptyString.
Proof.
  intros H soup. unfold extract_sentences in H.
  apply extract_from_soup_Ok_inv in H as [Hne ->]. fold soup in Hne |- *.
  assert (Htext : Str.join " " (split_sentences (clean_text (raw_text soup)))
                  = clean_text (raw_text soup))
    by (apply split_sentences_normalized;
        [apply clean_text_normalized|done]).
  unfold PageContent_text. cbn [sentences]. repeat split.
  - intros E. rewrite E in Htext. by rewrite <- Htext in Hne.
  - eapply Forall_impl; [apply split_sentences_pieces|].
    intros s Hs. split; [by apply whole_piece_nonempty|].
    by apply whole_piece_strip.
  - done.
  - by rewrite Htext.
Qed.

Lemma extract_sentences_page_witness :
  let parsed :=
    Tag "[document]"
      [Tag "html"
         [Tag "body" [Tag "p" [NavigableString " Hello   world. Bye! "]]]] in
  PageContent_text
    {| title := "Untitled page"; sentences := ["Hello world."; "Bye!"] |}
  = clean_text (raw_text (Soup.decompose_all NON_CONTENT parsed)).
Proof.
  intros parsed.
  destruct (extract_sentences_page (λ _, parsed)
              "<p> Hello   world. Bye! </p>"
              {| title := "Untitled page";
                 sentences := ["Hello world."; "Bye!"] |})
    as (_ & _ & Htext & _); [vm_compute; reflexivity|exact Htext].
Defined.

Lemma filter_head_split {A} (P : A → Prop) `{∀ x, Decision (P x)}
    (l : list A) (x : A) (r : list A) :
  filter P l = x :: r →
  ∃ before after,
    l = (before ++ x :: after)%list ∧ Forall (λ d, ¬ P d) before ∧ P x.
Proof.
  induction l as [|a l IH]; [done|].
  rewrite filter_cons. case_decide as Ha.
  - intros [= -> <-]. exists [], l. split; [done|]. by split.
  - intros E. destruct (IH E) as (before & after & -> & Hb & Hx).
    exists (a :: before), after. split; [done|].
    split; [by constructor|done].
Qed.

(** The title of a returned page has no white space at its ends.  With
    no title element left after the removal of the non-content tags it
    is the default title; otherwise it is decided by the first title
    element in document order: the default title when the text of that
    element is empty, its stripped text when not. *)
Theorem extract_sentences_title
    (BeautifulSoup : string → PageElement) (html : string)
    (page : PageContent) :
  extract_sentences BeautifulSoup html = Ok page →
  let soup := Soup.decompose_all NON_CONTENT (BeautifulSoup html) in
  Str.strip (title page) = title page ∧
  (((∀ contents, Tag "title" contents ∉ Soup.descendants soup) ∧
    title page = "Untitled page")
   ∨
   ∃ before contents after,
     Soup.descendants soup
     = (before ++ Tag "title" contents :: after)%list ∧
     Forall (λ d, Soup.is_tag "title" d = false) before ∧
     title page
     = if Str.is_empty (Soup.text (Tag "title" contents))
       then "Untitled page"
       else Str.strip (Soup.text (Tag "title" contents))).
Proof.
  intros H soup. unfold extract_sentences in H.
  apply extract_from_soup_Ok_inv in H as [_ ->]. fold soup.
  cbn [title]. split; [apply page_title_trimmed|].
  unfold page_title, Soup.find.
  destruct (Soup.find_all "title" soup) as [|t r] eqn:E.
  - left. split; [|done]. by apply find_all_nil.
  - right. cbn [head]. unfold Soup.find_all in E.
    apply filter_head_split in E as (before & after & Hd & Hb & Ht).
    destruct t as [x|x|n contents]; try done.
    simpl in Ht. apply bool_decide_eq_true in Ht as ->.
    exists before, contents, after. split; [done|]. split; [|done].
    eapply Forall_impl; [exact Hb|]. intros d Hd'.
    by apply not_true_is_false.
Qed.

Lemma extract_sentences_title_witness :
  Str.strip "First" = "First".
Proof.
  destruct (extract_sentences_title
              (λ _, Tag "[document]"
                      [Tag "head" [Tag "title" [NavigableString " First "]];
                       Tag "body"
                         [Tag "p" [NavigableString "Hello."];
                          Tag "svg" [Tag "title" [NavigableString "Second"]]]])
              "<title> First </title><p>Hello.</p><svg><title>Second</title></svg>"
              {| title := "First"; sentences := ["Hello."] |})
    as [Hstrip _]; [vm_compute; reflexivity|exact Hstrip].
Defined.

(** ** The formatted summary *)

Section format_facts.
Implicit Types (c : ascii) (s x : string) (l : list string).

Lemma split_lines_from_line x :
  all_chars (λ c, negb (Ascii.eqb c "010")) x = true →
  split_lines_from x = (x, []).
Proof.
  induction x as [|c x IH]; [done|]. cbn [all_chars split_lines_from].
  intros H. apply andb_prop in H as [Hc Hx]. rewrite (IH Hx).
  apply negb_true_iff in Hc. by rewrite Hc.
Qed.

Lemma split_lines_from_app x s :
  all_chars (λ c, negb (Ascii.eqb c "010")) x = true →
  split_lines_from (x ++ String "010" s)
  = (x, (split_lines_from s).1 :: (split_lines_from s).2).
Proof.
  induction x as [|c x IH].
  - intros _. change (EmptyString ++ String "010" s) with (String "010" s).
    cbn [split_lines_from]. by destruct (split_lines_from s).
  - cbn [all_chars]. intros H. apply andb_prop in H as [Hc Hx].
    change (String c x ++ String "010" s)
      with (String c (x ++ String "010" s)).
    cbn [split_lines_from]. rewrite (IH Hx).
    apply negb_true_iff in Hc. by rewrite Hc.
Qed.

Lemma split_lines_from_join x l :
  Forall (λ s, all_chars (λ c, negb (Ascii.eqb c "010")) s = true) (x :: l) →
  split_lines_from (Str.join newline (x :: l)) = (x, l).
Proof.
  revert x. induction l as [|y l IH]; intros x H.
  - apply Forall_cons in H as [Hx _]. by apply split_lines_from_line.
  - apply Forall_cons in H as [Hx Hl].
    change (Str.join newline (x :: y :: l))
      with (x ++ String "010" (Str.join newline (y :: l))).
    rewrite split_lines_from_app by done. by rewrite (IH y Hl).
Qed.
End format_facts.

(** When the title and the summary sentences hold no line feed, the
    lines of the formatted summary are the title, an empty line, and one
    line per sentence, in order, each sentence after a dash and a
    space. *)
Theorem format_summary_lines (page : PageContent) (summary : list string) :
  all_chars (λ c, negb (Ascii.eqb c "010")) (title page) = true →
  Forall (λ s, all_chars (λ c, negb (Ascii.eqb c "010")) s = true) summary →
  split_lines (format_summary page summary)
  = title page :: EmptyString
    :: ((λ sentence, String.append "- " sentence) <$> summary).
Proof.
  intros Ht Hs. unfold split_lines, format_summary.
  rewrite split_lines_from_join; [done|].
  constructor; [done|]. constructor; [done|].
  apply Forall_fmap. eapply Forall_impl; [exact Hs|].
  intros s Hline. exact Hline.
Qed.

Lemma format_summary_lines_witness :
  split_lines
    (format_summary {| title := "My page"; sentences := ["A."; "B."] |}
       ["A."; "B."])
  = ["My page"; ""; "- A."; "- B."].
Proof.
  apply (format_summary_lines
           {| title := "My page"; sentences := ["A."; "B."] |} ["A."; "B."]).
  - reflexivity.
  - repeat constructor.
Defined.

(** ** The callers: [run] and the web handler *)

Section callers_facts.
Variable set_iter : gset string → list string.
Hypothesis set_iter_perm : ∀ X, set_iter X ≡ₚ elements X.
Variable fetch_html : string → result string.
Variable BeautifulSoup : string → PageElement.
Variable int : string → option Z.

Implicit Types (url : string) (page : PageContent) (summary : list string).

Lemma summarize_sentences_raises sentences max_sentences min_chars e :
  summarize_sentences_with set_iter sentences max_sentences min_chars
  = Raise e →
  ∃ message, e = ScraperError message.
Proof.
  rewrite summarize_sentences_unfold by done.
  repeat case_decide; intros Hr; try done; injection Hr as <-; by eexists.
Qed.

Lemma run_Ok_inv url num_sentences min_chars page summary :
  run set_iter fetch_html BeautifulSoup url num_sentences min_chars
  = Ok (page, summary) →
  ∃ html,
    fetch_html url = Ok html ∧
    extract_sentences BeautifulSoup html = Ok page ∧
    summarize_sentences_with set_iter (sentences page) num_sentences
      min_chars = Ok summary.
Proof.
  unfold run. destruct (fetch_html url) as [html|] eqn:Ef; [|done].
  destruct (extract_sentences BeautifulSoup html) as [p|] eqn:Ep; [|done].
  destruct (summarize_sentences_with set_iter (sentences p) _ _)
    as [s|] eqn:Es; [|done].
  intros [= <- <-]. by exists html.
Qed.

Lemma run_raises url num_sentences min_chars e :
  (∀ e', fetch_html url = Raise e' → ∃ message, e' = ScraperError message) →
  run set_iter fetch_html BeautifulSoup url num_sentences min_chars
  = Raise e →
  ∃ message, e = ScraperError message.
Proof.
  intros Hfetch. unfold run.
  destruct (fetch_html url) as [html|e0]; [|intros [= <-]; by apply Hfetch].
  destruct (extract_sentences BeautifulSoup html) as [p|e1] eqn:E1.
  - destruct (summarize_sentences_with set_iter (sentences p) _ _)
      as [s|e2] eqn:E2; [done|].
    intros [= <-]. by eapply summarize_sentences_raises.
  - intros [= <-]. apply extract_from_soup_raises in E1. by eexists.
Qed.

Lemma run_summary url num_sentences min_chars page summary :
  run set_iter fetch_html BeautifulSoup url num_sentences min_chars
  = Ok (page, summary) →
  Forall (λ s, s ∈ sentences page ∧ min_chars ≤ Str.len s ∧ whole_piece s)
    summary ∧
  length summary
  = (Z.to_nat num_sentences
     `min` length (filter_sentences (sentences page) min_chars))%nat ∧
  filter_sentences (sentences page) min_chars ≠ [].
Proof.
  intros H. apply run_Ok_inv in H as (html & _ & Hpage & Hsum).
  apply summarize_sentences_Ok_inv in Hsum as [Hne ->]; [|done].
  assert (Hperm : sorted (index_key (sentences page))
                    (top_sentences set_iter (sentences page)
                       num_sentences min_chars)
                  ⊆+ filter_sentences (sentences page) min_chars).
  { rewrite sorted_perm. apply nlargest_sublist_perm. }
  split; [|split; [|done]].
  - apply Forall_forall. intros s Hs.
    pose proof (elem_of_submseteq _ _ _ Hs Hperm) as Hf.
    unfold filter_sentences in Hf.
    apply list_elem_of_filter in Hf as [Hlen Hin].
    split; [done|]. split; [done|].
    unfold extract_sentences in Hpage.
    apply extract_from_soup_Ok_inv in Hpage as [_ ->].
    cbn [sentences] in Hin.
    pose proof (split_sentences_pieces
                  (clean_text (raw_text
                     (Soup.decompose_all NON_CONTENT (BeautifulSoup html)))))
      as Hp.
    rewrite Forall_forall in Hp. by apply Hp.
  - rewrite sorted_perm. apply nlargest_length.
Qed.
End callers_facts.

(** What [run] returns: every summary sentence is a sentence of the
    returned page of at least [min_chars] characters, non-empty and
    without white space at its ends, and the summary has
    min([num_sentences], number of page sentences long enough)
    sentences. *)
Theorem run_summary_of_page
    (set_iter : gset string → list string)
    (fetch_html : string → result string)
    (BeautifulSoup : string → PageElement)
    (url : string) (num_sentences min_chars : Z)
    (page : PageContent) (summary : list string) :
  (∀ X, set_iter X ≡ₚ elements X) →
  run set_iter fetch_html BeautifulSoup url num_sentences min_chars
  = Ok (page, summary) →
  (∃ html, fetch_html url = Ok html
           ∧ extract_sentences BeautifulSoup html = Ok page) ∧
  Forall (λ s, s ∈ sentences page ∧ min_chars ≤ Str.len s
               ∧ s ≠ EmptyString ∧ Str.strip s = s) summary ∧
  length summary
  = (Z.to_nat num_sentences
     `min` length (filter_sentences (sentences page) min_chars))%nat.
Proof.
  intros Hiter H.
  destruct (run_summary set_iter Hiter fetch_html BeautifulSoup _ _ _ _ _ H)
    as (Hall & Hlen & _).
  apply run_Ok_inv in H as (html & Hf & Hp & _).
  split; [by exists html|]. split; [|done].
  eapply Forall_impl; [exact Hall|]. intros s (H1 & H2 & H3).
  repeat split; try done.
  - by apply whole_piece_nonempty.
  - by apply whole_piece_strip.
Qed.

Lemma run_summary_of_page_witness :
  let parsed :=
    Tag "[document]"
      [Tag "body"
         [Tag "p" [NavigableString "Red cats purr. Red dogs bark. No."]]] in
  Forall (λ s, s ∈ ["Red cats purr."; "Red dogs bark."; "No."]
               ∧ 5 ≤ Str.len s ∧ s ≠ EmptyString ∧ Str.strip s = s)
    ["Red cats purr."; "Red dogs bark."].
Proof.
  intros parsed.
  destruct (run_summary_of_page elements
              (λ _, Ok "<p>Red cats purr. Red dogs bark. No.</p>")
              (λ _, parsed) "http://example.org" 2 5
              {| title := "Untitled page";
                 sentences := ["Red cats purr."; "Red dogs bark."; "No."] |}
              ["Red cats purr."; "Red dogs bark."])
    as (_ & Hall & _).
  - intros X. reflexivity.
  - vm_compute. reflexivity.
  - exact Hall.
Defined.

(** The web handler shows either a result or an error message, never
    both and never neither, and it echoes the stripped form fields. *)
Theorem web_summarize_result_or_error
    (set_iter : gset string → list string)
    (fetch_html : string → result string)
    (BeautifulSoup : string → PageElement)
    (int : string → option Z)
    (form : gmap string string) (rendered : Rendered) :
  web_summarize set_iter fetch_html BeautifulSoup int form = Ok rendered →
  (is_Some (rendered_result rendered) ↔ rendered_error rendered = None) ∧
  form_defaults rendered
  = (Str.strip (form_get form "url" ""),
     Str.strip (form_get form "sentences" "5"),
     Str.strip (form_get form "min_chars" "40")).
Proof.
  unfold web_summarize.
  destruct (int (Str.strip (form_get form "sentences" "5"))) as [s|];
    [destruct (int (Str.strip (form_get form "min_chars" "40"))) as [m|]|].
  - destruct (Str.is_empty (Str.strip (form_get form "url" ""))).
    + intros [= <-]. simpl. split; [|done]. split; [by intros [??]|done].
    + destruct (run _ _ _ _ _ _) as [[page summary]|[msg|msg]].
      * intros [= <-]. simpl. split; [|done]. split; [done|by eexists].
      * intros [= <-]. simpl. split; [|done].
        split; [by intros [??]|done].
      * done.
  - intros [= <-]. simpl. split; [|done]. split; [by intros [??]|done].
  - intros [= <-]. simpl. split; [|done]. split; [by intros [??]|done].
Qed.

(** A result shown by the web handler comes from a non-empty URL and
    numeric fields; its summary has at least one and at most
    max(1, sentences) sentences, each of at least max(10, min_chars)
    characters, and its full text is not empty. *)
Theorem web_summarize_result_bounds
    (set_iter : gset string → list string)
    (fetch_html : string → result string)
    (BeautifulSoup : string → PageElement)
    (int : string → option Z)
    (form : gmap string string) (rendered : Rendered) (view : SummaryView) :
  (∀ X, set_iter X ≡ₚ elements X) →
  web_summarize set_iter fetch_html BeautifulSoup int form = Ok rendered →
  rendered_result rendered = Some view →
  ∃ s m,
    int (Str.strip (form_get form "sentences" "5")) = Some s ∧
    int (Str.strip (form_get form "min_chars" "40")) = Some m ∧
    view_url view = Str.strip (form_get form "url" "") ∧
    view_url view ≠ EmptyString ∧
    (1 ≤ length (view_summary view))%nat ∧
    Z.of_nat (length (view_summary view)) ≤ Z.max 1 s ∧
    Forall (λ x, Z.max 10 m ≤ Str.len x) (view_summary view) ∧
    view_full_text view ≠ EmptyString.
Proof.
  intros Hiter. unfold web_summarize.
  destruct (int (Str.strip (form_get form "sentences" "5"))) as [s|];
    [destruct (int (Str.strip (form_get form "min_chars" "40"))) as [m|]|];
    [|by intros [= <-]|by intros [= <-]].
  destruct (Str.is_empty (Str.strip (form_get form "url" ""))) eqn:Eurl;
    [by intros [= <-]|].
  destruct (run _ _ _ _ _ _) as [[page summary]|[msg|msg]] eqn:Erun;
    [|by intros [= <-]|done].
  intros [= <-]. simpl. intros [= <-]. simpl.
  exists s, m. split; [done|]. split; [done|]. split; [done|].
  split; [by apply is_empty_false|].
  destruct (run_summary set_iter Hiter fetch_html BeautifulSoup _ _ _ _ _
              Erun) as (Hall & Hlen & Hne).
  apply run_Ok_inv in Erun as (html & _ & Hpage & _).
  destruct (filter_sentences (sentences page) (Z.max 10 m)) as [|x r] eqn:E;
    [done|].
  simpl in Hlen. repeat split.
  - lia.
  - lia.
  - eapply Forall_impl; [exact Hall|]. by intros x0 (_ & ? & _).
  - unfold extract_sentences in Hpage.
    apply extract_from_soup_Ok_inv in Hpage as [Hclean ->].
    unfold PageContent_text. cbn [sentences].
    rewrite split_sentences_normalized;
      [done|apply clean_text_normalized|done].
Qed.

Section parser_facts.
Variable set_iter : gset string → list string.
Hypothesis set_iter_perm : ∀ X, set_iter X ≡ₚ elements X.
Variable fetch_html : string → result string.
Variable parse : string → result PageElement.
Variable int : string → option Z.

(** With a parser that raises nothing the two models of the handler
    agree. *)
Lemma web_summarize_parsed_total (BeautifulSoup : string → PageElement) form :
  (∀ html, parse html = Ok (BeautifulSoup html)) →
  web_summarize_parsed set_iter fetch_html parse int form
  = web_summarize set_iter fetch_html BeautifulSoup int form.
Proof.
  intros Hparse.
  unfold web_summarize_parsed, web_summarize, run_parsed, run,
    extract_sentences_parsed, extract_sentences.
  repeat (case_match; simplify_eq; try done);
    rewrite Hparse in *; congruence.
Qed.

End parser_facts.


Lemma web_summarize_result_or_error_witness :
  let rendered :=
    {| rendered_result := None;
       rendered_error := Some "Please enter a valid URL.";
       form_defaults := ("", "5", "40") |} in
  (is_Some (rendered_result rendered) ↔ rendered_error rendered = None) ∧
  form_defaults rendered
  = (Str.strip (form_get ∅ "url" ""),
     Str.strip (form_get ∅ "sentences" "5"),
     Str.strip (form_get ∅ "min_chars" "40")).
Proof.
  intros rendered.
  apply (web_summarize_result_or_error elements
           (λ _, Raise (ScraperError "Network error"))
           (λ _, Tag "[document]" [])
           (λ s, if String.eqb s "5" then Some 5
                 else if String.eqb s "40" then Some 40 else None)
           ∅ rendered).
  vm_compute. reflexivity.
Defined.

Lemma web_summarize_result_bounds_witness :
  let parsed :=
    Tag "[document]"
      [Tag "body"
         [Tag "p" [NavigableString
                     "Red cats purr loudly. Red dogs bark. Short."]]] in
  let form : gmap string string :=
    <["url" := " http://example.org "]>
      (<["sentences" := "0"]> (<["min_chars" := "0"]> ∅)) in
  let view :=
    {| view_title := "Untitled page"; view_url := "http://example.org";
       view_summary := ["Red cats purr loudly."];
       view_full_text := "Red cats purr loudly. Red dogs bark. Short." |} in
  ∃ s m : Z,
    (1 ≤ length (view_summary view))%nat ∧
    Z.of_nat (length (view_summary view)) ≤ Z.max 1 s ∧
    Forall (λ x, Z.max 10 m ≤ Str.len x) (view_summary view).
Proof.
  intros parsed form view.
  destruct (web_summarize_result_bounds elements
              (λ _, Ok "<p>Red cats purr loudly. Red dogs bark. Short.</p>")
              (λ _, parsed)
              (λ s, if String.eqb s "0" then Some 0 else None)
              form
              {| rendered_result := Some view; rendered_error := None;
                 form_defaults := ("http://example.org", "0", "0") |}
              view)
    as (s & m & _ & _ & _ & _ & H1 & H2 & H3 & _).
  - intros X. reflexivity.
  - vm_compute. reflexivity.
  - reflexivity.
  - by exists s, m.
Defined.


(** ** Independence of the order of the sentences *)

Lemma positive_counts_lookup_eq (m : gmap string nat) (w : string) :
  positive_counts m →
  m !! w = if decide (counter_get m w = 0%nat) then None
           else Some (counter_get m w).
Proof.
  intros Hm. unfold counter_get. specialize (Hm w).
  destruct (m !! w) as [[|n]|]; simpl; try done.
Qed.

Lemma filter_sentences_perm sentences1 sentences2 min_chars :
  sentences1 ≡ₚ sentences2 →
  filter_sentences sentences1 min_chars
  ≡ₚ filter_sentences sentences2 min_chars.
Proof. intros H. unfold filter_sentences. by apply filter_Permutation. Qed.

(** The word-frequency table, hence the score of every sentence, and
    the failure of the call do not depend on the order of the input
    sentences. *)
Theorem word_freq_order_independent
    (set_iter : gset string → list string)
    (sentences1 sentences2 : list string) (max_sentences min_chars : Z) :
  (∀ X, set_iter X ≡ₚ elements X) →
  sentences1 ≡ₚ sentences2 →
  build_word_freq set_iter (filter_sentences sentences1 min_chars)
  = build_word_freq set_iter (filter_sentences sentences2 min_chars) ∧
  (∀ e,
     summarize_sentences_with set_iter sentences1 max_sentences min_chars
     = Raise e
     ↔ summarize_sentences_with set_iter sentences2 max_sentences min_chars
       = Raise e).
Proof.
  intros Hiter Hperm.
  pose proof (filter_sentences_perm _ _ min_chars Hperm) as Hf.
  assert (Hwf :
    build_word_freq set_iter (filter_sentences sentences1 min_chars)
    = build_word_freq set_iter (filter_sentences sentences2 min_chars)).
  { apply map_eq. intros w.
    rewrite !positive_counts_lookup_eq by (by apply positive_counts_build).
    rewrite !counter_get_build_word_freq by done.
    assert (length (filter (λ s, w ∈ tokenize_sentence s)
                      (filter_sentences sentences1 min_chars))
            = length (filter (λ s, w ∈ tokenize_sentence s)
                        (filter_sentences sentences2 min_chars))) as ->
      by (by apply Permutation_length, filter_Permutation).
    done. }
  split; [done|]. intros e.
  rewrite !summarize_sentences_unfold by done. cbv zeta.
  assert (Hnil : filter_sentences sentences1 min_chars = []
                 ↔ filter_sentences sentences2 min_chars = []).
  { split; intros E; rewrite E in Hf;
      [symmetry in Hf|]; by apply Permutation_nil_r in Hf. }
  assert (Hall :
    Forall (λ s, tokenize_sentence s = [])
      (filter_sentences sentences1 min_chars)
    ↔ Forall (λ s, tokenize_sentence s = [])
        (filter_sentences sentences2 min_chars))
    by (split; intros Hx; [by rewrite <- Hf|by rewrite Hf]).
  repeat case_decide; try done; tauto.
Qed.

Lemma word_freq_order_independent_witness :
  build_word_freq elements
    (filter_sentences ["Red cats."; "Red dogs."; "no"] 5)
  = build_word_freq elements
      (filter_sentences ["no"; "Red dogs."; "Red cats."] 5).
Proof.
  destruct (word_freq_order_independent elements
              ["Red cats."; "Red dogs."; "no"]
              ["no"; "Red dogs."; "Red cats."] 2 5) as [H _].
  - intros X. reflexivity.
  - apply (bool_decide_unpack _). vm_compute. exact I.
  - exact H.
Defined.
